(** * fix-imports.py: stripping [.js] from TypeScript import paths

    A shallow embedding of [src/fix-imports.py].  The script reads every
    [*.ts] / [*.tsx] file under a fixed root, runs two [re.sub] rules over
    the text and writes the file back when the text changed.

    The development has three layers:
    - [Re]: the fragment of Python's [re] module the two patterns use
      (a backtracking matcher and [re.sub]);
    - the program: [patterns], [rewrite], [fix_imports_in_file], [main],
      over an abstract operating-system interface [Os];
    - the properties of the program. *)

From Stdlib Require Import String Ascii.
From Stdlib Require Import List NArith Arith Bool Lia.
Import ListNotations.

Set Implicit Arguments.

(** ** Text *)

(** A Python [str] is a sequence of Unicode code points. *)
Definition char := N.
Definition text := list char.

(** The code points of an ASCII literal of the source. *)
Definition str (s : string) : text := map N_of_ascii (list_ascii_of_string s).

Definition text_eqb (a b : text) : bool :=
  if list_eq_dec N.eq_dec a b then true else false.

(** ** The fragment of [re] used by the script *)

Module Re.

(** [\s] on a [str] pattern: the code points for which CPython's
    [Py_UNICODE_ISSPACE] holds. *)
Definition is_space (c : char) : bool :=
  (((9 <=? c) && (c <=? 13)) || ((28 <=? c) && (c <=? 32))
   || (c =? 133) || (c =? 160) || (c =? 5760)
   || ((8192 <=? c) && (c <=? 8202))
   || (c =? 8232) || (c =? 8233) || (c =? 8239) || (c =? 8287)
   || (c =? 12288))%N.

Definition mem (c : char) (l : list char) : bool := existsb (N.eqb c) l.

(** The sets a single pattern position can denote. *)
Inductive charset : Type :=
| Literal (c : char)          (* an ordinary or escaped character, [f], [\.] *)
| Space                       (* [\s] *)
| OneOf (l : list char)       (* [[...]] *)
| NoneOf (l : list char).     (* [[^...]] *)

Definition accepts (cs : charset) (c : char) : bool :=
  match cs with
  | Literal d => N.eqb c d
  | Space => is_space c
  | OneOf l => mem c l
  | NoneOf l => negb (mem c l)
  end.

(** A set, with the repetition applied to it. *)
Inductive rep : Type :=
| One (cs : charset)          (* [x] *)
| Plus (cs : charset)         (* [x+], greedy *)
| LazyStar (cs : charset).    (* [x*?], lazy *)

(** A pattern is a sequence of repetitions, some of them inside a capturing
    group; groups are numbered from 1 in the order they open. *)
Inductive node : Type :=
| Plain (r : rep)
| Capture (r : rep).

Definition pattern := list node.

(** What a match yields: the text of every group, in order, and the input
    that follows the match. *)
Definition result := (list text * text)%type.

Section Backtracking.
Variable R : Type.
Variable p : char -> bool.
(** [k] is the rest of the pattern. *)
Variable k : text -> option R.

Definition stop (s : text) : option (text * R) :=
  option_map (fun r => ([], r)) (k s).

Definition take (x : char) (o : option (text * R)) : option (text * R) :=
  option_map (fun sr => (x :: fst sr, snd sr)) o.

(** [x*?]: the rest of the pattern is tried first, one more character
    is consumed only when it fails. *)
Fixpoint lazy_star (s : text) : option (text * R) :=
  match stop s with
  | Some r => Some r
  | None =>
      match s with
      | x :: s' => if p x then take x (lazy_star s') else None
      | [] => None
      end
  end.

(** [x*], greedy: as many characters as possible are consumed first, and
    one is given back each time the rest of the pattern fails. *)
Fixpoint greedy_star (s : text) : option (text * R) :=
  match s with
  | x :: s' =>
      if p x then
        match greedy_star s' with
        | Some r => take x (Some r)
        | None => stop s
        end
      else stop s
  | [] => stop s
  end.

Definition once (s : text) : option (text * R) :=
  match s with
  | x :: s' => if p x then take x (stop s') else None
  | [] => None
  end.

(** [x+] is [x] followed by [x*]. *)
Definition greedy_plus (s : text) : option (text * R) :=
  match s with
  | x :: s' => if p x then take x (greedy_star s') else None
  | [] => None
  end.
End Backtracking.

(** Runs one repetition and then the rest of the pattern; the text the
    repetition consumed comes back with the result. *)
Definition run_rep (r : rep) (k : text -> option result) (s : text)
  : option (text * result) :=
  match r with
  | One cs => once (accepts cs) k s
  | Plus cs => greedy_plus (accepts cs) k s
  | LazyStar cs => lazy_star (accepts cs) k s
  end.

(** The match of [pat] that starts at the head of [s], if there is one:
    the first one a backtracking search finds. *)
Fixpoint match_here (pat : pattern) (s : text) : option result :=
  match pat with
  | [] => Some ([], s)
  | Plain r :: pat' =>
      option_map snd (run_rep r (match_here pat') s)
  | Capture r :: pat' =>
      option_map (fun sr => (fst sr :: fst (snd sr), snd (snd sr)))
                 (run_rep r (match_here pat') s)
  end.

(** A replacement template: literal text and group references [\1], [\2]. *)
Inductive piece : Type :=
| Txt (t : text)
| Ref (i : nat).

Definition template := list piece.

Fixpoint expand (tpl : template) (caps : list text) : text :=
  match tpl with
  | [] => []
  | Txt t :: tpl' => t ++ expand tpl' caps
  | Ref i :: tpl' => nth (i - 1) caps [] ++ expand tpl' caps
  end.

(** [re.sub]: the input is scanned from left to right; where the pattern
    matches, the expanded template is emitted and the scan resumes after the
    match; elsewhere the character is copied.  [skip] counts the characters
    of the current match still to be passed over.  A match of no character
    is replaced and the scan moves on by one copied character; neither
    pattern of the script can match the empty text. *)
Fixpoint sub_from (pat : pattern) (repl : template) (skip : nat) (s : text)
  {struct s} : text :=
  match skip with
  | S n =>
      match s with
      | [] => []
      | _ :: s' => sub_from pat repl n s'
      end
  | O =>
      match match_here pat s with
      | Some (caps, rest) =>
          expand repl caps ++
          match length s - length rest, s with
          | S n, _ :: s' => sub_from pat repl n s'
          | O, c :: s' => c :: sub_from pat repl 0 s'
          | _, [] => []
          end
      | None =>
          match s with
          | [] => []
          | c :: s' => c :: sub_from pat repl 0 s'
          end
      end
  end.

Definition sub (pat : pattern) (repl : template) (s : text) : text :=
  sub_from pat repl 0 s.

(** The pattern matches somewhere in [s]. *)
Fixpoint search (pat : pattern) (s : text) : bool :=
  match match_here pat s with
  | Some _ => true
  | None =>
      match s with
      | [] => false
      | _ :: s' => search pat s'
      end
  end.

(** A run of literal characters. *)
Definition lits (s : string) : pattern :=
  map (fun c => Plain (One (Literal c))) (str s).

End Re.

(** ** The script *)

(** The two quote characters: the single quote (39) and the double quote
    (34). *)
Definition squote : char := 39%N.
Definition dquote : char := 34%N.
Definition quotes : list char := [squote; dquote].

(** Rule 1: [from], [\s+], a quote, group 1 = a lazy run of non-quote
    characters, [\.js], a quote. *)
Definition pattern1 : Re.pattern :=
  Re.lits "from"
  ++ [Re.Plain (Re.Plus Re.Space);
      Re.Plain (Re.One (Re.OneOf quotes));
      Re.Capture (Re.LazyStar (Re.NoneOf quotes))]
  ++ Re.lits ".js"
  ++ [Re.Plain (Re.One (Re.OneOf quotes))].

(** Its template: [from], one space, group 1 between single quotes. *)
Definition replacement1 : Re.template :=
  [Re.Txt (str "from '"); Re.Ref 1; Re.Txt (str "'")].

(** Rule 2: [import], [\s+], group 1 = a lazy run of non-quote characters,
    [\s+], [from], [\s+], a quote, group 2 = a lazy run of non-quote
    characters, [\.js], a quote. *)
Definition pattern2 : Re.pattern :=
  Re.lits "import"
  ++ [Re.Plain (Re.Plus Re.Space);
      Re.Capture (Re.LazyStar (Re.NoneOf quotes));
      Re.Plain (Re.Plus Re.Space)]
  ++ Re.lits "from"
  ++ [Re.Plain (Re.Plus Re.Space);
      Re.Plain (Re.One (Re.OneOf quotes));
      Re.Capture (Re.LazyStar (Re.NoneOf quotes))]
  ++ Re.lits ".js"
  ++ [Re.Plain (Re.One (Re.OneOf quotes))].

(** Its template: [import], a space, group 1, a space, [from], a space,
    group 2 between single quotes. *)
Definition replacement2 : Re.template :=
  [Re.Txt (str "import "); Re.Ref 1; Re.Txt (str " from '"); Re.Ref 2;
   Re.Txt (str "'")].

Definition patterns : list (Re.pattern * Re.template) :=
  [(pattern1, replacement1); (pattern2, replacement2)].

(** The loop [for pattern, replacement in patterns: content = re.sub(...)]. *)
Definition rewrite (content : text) : text :=
  fold_left (fun c pr => Re.sub (fst pr) (snd pr) c) patterns content.

(** ** The operating system, as the script sees it *)

(** What [open], [read], [write], [Path.exists] and [Path.rglob] do is not
    the script's business: they form an interface.  A read leaves the file
    system as it is and yields the decoded text or the exception raised; a
    write yields the new file system and the exception raised, if any (a
    failed write may still have truncated the file).  The existence test,
    the enumeration of the files and [print] are taken to return. *)
Class Os : Type := {
  path : Type;
  exn : Type;
  fs : Type;
  Path : string -> path;
  os_read : fs -> path -> exn + text;
  os_write : fs -> path -> text -> fs * option exn;
  os_exists : fs -> path -> bool;
  os_rglob : fs -> path -> string -> list path
}.

Section Script.
Context {os : Os}.

(** The lines the script prints. *)
Inductive line : Type :=
| FixedImportsIn (file_path : path)
| ErrorProcessing (file_path : path) (e : exn)
| RootNotFound (project_root : path)
| FoundFiles (n : nat)
| FixedCount (fixed_count : nat).

(** What the script does to the outside world, in order. *)
Inductive event : Type :=
| EvRead (file_path : path)
| EvWrite (file_path : path) (content : text)
| EvPrint (l : line).

Record world : Type := { w_fs : fs; w_trace : list event }.

Definition emit (ev : event) (w : world) : world :=
  {| w_fs := w_fs w; w_trace := w_trace w ++ [ev] |}.

(** A statement either completes with a value or raises. *)
Definition io (A : Type) : Type := world -> (exn + A) * world.

Definition ret {A} (a : A) : io A := fun w => (inr a, w).

Definition bind {A B} (m : io A) (f : A -> io B) : io B :=
  fun w =>
    match m w with
    | (inl e, w') => (inl e, w')
    | (inr a, w') => f a w'
    end.

(** [try: body  except Exception as e: handler e] *)
Definition try_except {A} (body : io A) (handler : exn -> io A) : io A :=
  fun w =>
    match body w with
    | (inl e, w') => handler e w'
    | (inr a, w') => (inr a, w')
    end.

(** [with open(file_path, 'r', encoding='utf-8') as f: f.read()] *)
Definition read_text (file_path : path) : io text :=
  fun w => (os_read (w_fs w) file_path, emit (EvRead file_path) w).

(** [with open(file_path, 'w', encoding='utf-8') as f: f.write(content)] *)
Definition write_text (file_path : path) (content : text) : io unit :=
  fun w =>
    let r := os_write (w_fs w) file_path content in
    (match snd r with Some e => inl e | None => inr tt end,
     {| w_fs := fst r; w_trace := w_trace w ++ [EvWrite file_path content] |}).

Definition print (l : line) : io unit :=
  fun w => (inr tt, emit (EvPrint l) w).

Definition path_exists (p : path) : io bool :=
  fun w => (inr (os_exists (w_fs w) p), w).

Definition rglob (p : path) (ext : string) : io (list path) :=
  fun w => (inr (os_rglob (w_fs w) p ext), w).

Notation "x <- m ;; f" := (bind m (fun x => f))
  (at level 61, m at next level, right associativity).
Notation "m ;;; f" := (bind m (fun _ => f))
  (at level 61, right associativity).

Definition fix_imports_in_file (file_path : path) : io bool :=
  try_except
    (content <- read_text file_path ;;
     let original_content := content in
     let content := rewrite content in
     if negb (text_eqb content original_content) then
       write_text file_path content ;;;
       print (FixedImportsIn file_path) ;;;
       ret true
     else
       ret false)
    (fun e =>
       print (ErrorProcessing file_path e) ;;;
       ret false).

Definition project_root : path :=
  Path "/home/ty/Repositories/ai_workspace/esaf-framework/src".

(** [for ext in [...]: ts_files.extend(project_root.rglob(ext))] *)
Fixpoint find_files (exts : list string) (ts_files : list path)
  : io (list path) :=
  match exts with
  | [] => ret ts_files
  | ext :: exts' =>
      found <- rglob project_root ext ;;
      find_files exts' (ts_files ++ found)
  end.

(** [for file_path in ts_files: if fix_imports_in_file(file_path):
    fixed_count += 1] *)
Fixpoint fix_all (ts_files : list path) (fixed_count : nat) : io nat :=
  match ts_files with
  | [] => ret fixed_count
  | file_path :: ts_files' =>
      fixed <- fix_imports_in_file file_path ;;
      fix_all ts_files' (if fixed then fixed_count + 1 else fixed_count)
  end.

Definition main : io unit :=
  root_exists <- path_exists project_root ;;
  if negb root_exists then
    print (RootNotFound project_root)
  else
    ts_files <- find_files ["*.ts"; "*.tsx"]%string [] ;;
    print (FoundFiles (length ts_files)) ;;;
    fixed_count <- fix_all ts_files 0 ;;
    print (FixedCount fixed_count).

(** The world before the script has done anything. *)
Definition start (disk : fs) : world := {| w_fs := disk; w_trace := [] |}.

(** The program run from a file system, with nothing printed yet. *)
Definition run {A} (m : io A) (disk : fs) : (exn + A) * world :=
  m (start disk).

Definition is_write (ev : event) : bool :=
  match ev with EvWrite _ _ => true | _ => false end.

Definition is_fixed_line (ev : event) : bool :=
  match ev with EvPrint (FixedImportsIn _) => true | _ => false end.

(** The write events of a trace. *)
Definition writes (tr : list event) : list event := filter is_write tr.

(** Reading [file_path] raises [e]. *)
Definition read_fails (disk : fs) (file_path : path) (e : exn) : Prop :=
  os_read disk file_path = inl e.

(** [file_path] is read, its text changes under the rewriter, and writing
    the new text raises [e]. *)
Definition write_fails (disk : fs) (file_path : path) (e : exn) : Prop :=
  exists content,
    os_read disk file_path = inr content
    /\ rewrite content <> content
    /\ snd (os_write disk file_path (rewrite content)) = Some e.

Definition fails (disk : fs) (file_path : path) (e : exn) : Prop :=
  read_fails disk file_path e \/ write_fails disk file_path e.

(** The four ways a file can go. *)
Inductive outcome (w : world) (p : path) : bool -> world -> Prop :=
| ReadFailed e :
    os_read (w_fs w) p = inl e ->
    outcome w p false
      {| w_fs := w_fs w;
         w_trace := w_trace w ++ [EvRead p; EvPrint (ErrorProcessing p e)] |}
| Unchanged content :
    os_read (w_fs w) p = inr content ->
    rewrite content = content ->
    outcome w p false
      {| w_fs := w_fs w; w_trace := w_trace w ++ [EvRead p] |}
| Written content disk' :
    os_read (w_fs w) p = inr content ->
    rewrite content <> content ->
    os_write (w_fs w) p (rewrite content) = (disk', None) ->
    outcome w p true
      {| w_fs := disk';
         w_trace := w_trace w
                    ++ [EvRead p; EvWrite p (rewrite content);
                        EvPrint (FixedImportsIn p)] |}
| WriteFailed content disk' e :
    os_read (w_fs w) p = inr content ->
    rewrite content <> content ->
    os_write (w_fs w) p (rewrite content) = (disk', Some e) ->
    outcome w p false
      {| w_fs := disk';
         w_trace := w_trace w
                    ++ [EvRead p; EvWrite p (rewrite content);
                        EvPrint (ErrorProcessing p e)] |}.
End Script.

(** ** A file system in memory

    Files are held in a list under their names; a file is its text or the
    exception reading it raises, and may be write-protected. *)

Record mem_file : Type := {
  mf_text : string + text;
  mf_locked : bool
}.

Record mem_fs : Type := {
  root_present : bool;
  entries : list (string * mem_file)
}.

Fixpoint mem_lookup (name : string) (l : list (string * mem_file))
  : option mem_file :=
  match l with
  | [] => None
  | (n, f) :: l' => if String.eqb n name then Some f else mem_lookup name l'
  end.

Fixpoint mem_store (name : string) (f : mem_file)
  (l : list (string * mem_file)) : list (string * mem_file) :=
  match l with
  | [] => [(name, f)]
  | (n, g) :: l' =>
      if String.eqb n name then (n, f) :: l' else (n, g) :: mem_store name f l'
  end.

Definition mem_read (d : mem_fs) (name : string) : string + text :=
  match mem_lookup name (entries d) with
  | Some f => mf_text f
  | None => inl "No such file or directory"%string
  end.

Definition mem_write (d : mem_fs) (name : string) (c : text)
  : mem_fs * option string :=
  match mem_lookup name (entries d) with
  | Some f =>
      if mf_locked f then (d, Some "Permission denied"%string)
      else ({| root_present := root_present d;
               entries := mem_store name
                            {| mf_text := inr c; mf_locked := false |}
                            (entries d) |}, None)
  | None =>
      ({| root_present := root_present d;
          entries := mem_store name
                       {| mf_text := inr c; mf_locked := false |}
                       (entries d) |}, None)
  end.

(** [name] ends with the extension of the glob [*ext]. *)
Definition glob_match (glob name : string) : bool :=
  let ext := List.tl (list_ascii_of_string glob) in
  let n := list_ascii_of_string name in
  if list_eq_dec ascii_dec (skipn (length n - length ext) n) ext
  then true else false.

#[export] Instance MemOs : Os := {|
  path := string;
  exn := string;
  fs := mem_fs;
  Path := fun s => s;
  os_read := mem_read;
  os_write := mem_write;
  os_exists := fun d _ => root_present d;
  os_rglob := fun d _ glob =>
    map fst (filter (fun e => glob_match glob (fst e)) (entries d))
|}.

(** A project with a file rule 1 fixes, a write-protected one, one that does
    not decode, one with nothing to fix and one that is not TypeScript. *)
Definition sample_disk : mem_fs := {|
  root_present := true;
  entries :=
    [("a.ts"%string,
      {| mf_text := inr (str "export * from './x.js';"); mf_locked := false |});
     ("b.tsx"%string,
      {| mf_text := inr (str "import y from './y.js'"); mf_locked := true |});
     ("c.ts"%string,
      {| mf_text := inl "invalid start byte"%string; mf_locked := false |});
     ("d.ts"%string,
      {| mf_text := inr (str "import z from './z'"); mf_locked := false |});
     ("e.js"%string,
      {| mf_text := inr (str "import y from './y.js'"); mf_locked := false |})]
|}.

(** A machine without the project. *)
Definition no_project : mem_fs := {| root_present := false; entries := [] |}.


(** ** Vocabulary of the statements *)

Definition is_quote (c : char) : bool := Re.mem c quotes.

(** A run of whitespace, as [\s] sees it. *)
Definition spaces (ws : text) : bool := forallb Re.is_space ws.

(** A text without any quote character. *)
Definition quote_free (t : text) : bool :=
  forallb (fun c => negb (is_quote c)) t.

Fixpoint starts_with (p s : text) : bool :=
  match p, s with
  | [], _ => true
  | _ :: _, [] => false
  | a :: p', b :: s' => N.eqb a b && starts_with p' s'
  end.

Definition ends_with (suffix s : text) : bool :=
  starts_with (rev suffix) (rev s).

Fixpoint occurs (p s : text) : bool :=
  starts_with p s
  || match s with
     | [] => false
     | _ :: s' => occurs p s'
     end.

(** What rule 1 looks for, laid out: [from], whitespace, a quote, the
    path without its extension, [.js], a quote. *)
Definition from_clause (ws : text) (q : char) (stem : text) (q' : char)
  : text :=
  str "from" ++ ws ++ q :: stem ++ str ".js" ++ [q'].

(** The clause the way it would read had rule 1 kept its whitespace and its
    quote character and only dropped [.js]. *)
Definition from_kept (ws : text) (q : char) (stem : text) : text :=
  str "from" ++ ws ++ q :: stem ++ [q].

(** What rule 1 puts in its place. *)
Definition from_fixed (stem : text) : text :=
  str "from '" ++ stem ++ str "'".

(** A [from] clause with any path between its quotes. *)
Definition plain_clause (ws : text) (q : char) (p : text) (q' : char)
  : text :=
  str "from" ++ ws ++ q :: p ++ [q'].

(** The last character of [t] is whitespace. *)
Definition ends_in_space (t : text) : bool :=
  match rev t with
  | c :: _ => Re.is_space c
  | [] => false
  end.

(** The head of an import statement: [import], whitespace, the import
    clause, whitespace. *)
Definition import_head (ws1 clause ws2 : text) : text :=
  str "import" ++ ws1 ++ clause ++ ws2.

(** The tail shared by the two patterns: a quote, the lazy group, [.js],
    a quote. *)
Definition literal_tail : Re.pattern :=
  [Re.Plain (Re.One (Re.OneOf quotes));
   Re.Capture (Re.LazyStar (Re.NoneOf quotes))]
  ++ Re.lits ".js"
  ++ [Re.Plain (Re.One (Re.OneOf quotes))].

(** The input after a run does not go on with a character of the set. *)
Definition run_ends (p : char -> bool) (s' : text) : Prop :=
  match s' with
  | [] => True
  | x :: _ => p x = false
  end.

(** Every match of [pat] is strictly longer than what replaces it. *)
Definition shrinking (pat : Re.pattern) (repl : Re.template) : Prop :=
  forall s caps rest,
    Re.match_here pat s = Some (caps, rest) ->
    exists seg, s = seg ++ rest
                /\ length (Re.expand repl caps) < length seg.

Definition is_nil (t : text) : bool :=
  match t with [] => true | _ => false end.

(** The parts of a [from] clause are what the pattern asks for: a non-empty
    run of whitespace, two quotes, and no quote in between. *)
Definition clause_ok (ws : text) (q : char) (stem : text) (q' : char)
  : bool :=
  negb (is_nil ws) && spaces ws && is_quote q && quote_free stem
  && is_quote q'.

(** A [from] clause whose path ends neither in [.js] nor in whitespace. *)
Definition path_ok (ws : text) (q : char) (p : text) (q' : char) : bool :=
  clause_ok ws q p q' && negb (ends_with (str ".js") p)
  && negb (ends_in_space p).

(** What a match of either rule looks like to the quotes: a quote-free
    stretch that ends in whitespace, a quote, a quote-free literal ending in
    [.js], a quote. *)
Definition quoted_shape (s rest : text) : Prop :=
  exists a0 wsM Q g Q',
    s = (a0 ++ wsM) ++ Q :: (g ++ str ".js") ++ Q' :: rest
    /\ quote_free a0 = true /\ wsM <> [] /\ spaces wsM = true
    /\ is_quote Q = true /\ quote_free g = true /\ is_quote Q' = true.

(** The parts of an import head: two non-empty runs of whitespace around a
    clause without quotes. *)
Definition head_ok (ws1 clause ws2 : text) : bool :=
  negb (is_nil ws1) && spaces ws1 && quote_free clause
  && negb (is_nil ws2) && spaces ws2.

(** The number of characters of [t] that satisfy [f]. *)
Definition count (f : char -> bool) (t : text) : nat := length (filter f t).

(** The number of quote characters, of either kind, and of double quotes. *)
Definition nquotes (t : text) : nat := count is_quote t.
Definition ndquotes (t : text) : nat := count (N.eqb dquote) t.

(** Every match of [pat] is at least [n] characters longer than what
    replaces it. *)
Definition shrinking_by (n : nat) (pat : Re.pattern) (repl : Re.template)
  : Prop :=
  forall s caps rest,
    Re.match_here pat s = Some (caps, rest) ->
    exists seg, s = seg ++ rest
                /\ length (Re.expand repl caps) + n <= length seg.

(** What replaces a match of [pat] has as many characters satisfying [f] as
    the match ([cmp] is equality) or at most as many ([cmp] is [<=]). *)
Definition keeps_count (cmp : nat -> nat -> Prop) (f : char -> bool)
  (pat : Re.pattern) (repl : Re.template) : Prop :=
  forall s caps rest,
    Re.match_here pat s = Some (caps, rest) ->
    exists seg, s = seg ++ rest /\ seg <> []
                /\ cmp (count f (Re.expand repl caps)) (count f seg).

(** A stretch of a source file up to and including one string literal:
    either a [from] clause whose literal ends in [.js], after some text
    [pre], or any other literal after some text [pre]. *)
Inductive block : Type :=
| Fix (pre ws : text) (q : char) (stem : text) (q' : char)
| Keep (pre : text) (q : char) (p : text) (q' : char).

(** The text before a literal has no quote; the literal has none inside;
    what the rewriter is to leave of it ends neither in [.js] nor in
    whitespace. *)
Definition block_ok (b : block) : bool :=
  match b with
  | Fix pre ws q stem q' =>
      quote_free pre && clause_ok ws q stem q'
      && negb (ends_with (str ".js") stem) && negb (ends_in_space stem)
  | Keep pre q p q' =>
      quote_free pre && is_quote q && quote_free p && is_quote q'
      && negb (ends_with (str ".js") p) && negb (ends_in_space p)
  end.

(** The file as it is read. *)
Fixpoint source_text (bs : list block) (post : text) : text :=
  match bs with
  | [] => post
  | Fix pre ws q stem q' :: bs' =>
      pre ++ from_clause ws q stem q' ++ source_text bs' post
  | Keep pre q p q' :: bs' =>
      pre ++ (q :: p ++ [q']) ++ source_text bs' post
  end.

(** The file with every [from] clause fixed and nothing else touched. *)
Fixpoint fixed_text (bs : list block) (post : text) : text :=
  match bs with
  | [] => post
  | Fix pre ws q stem q' :: bs' =>
      pre ++ from_fixed stem ++ fixed_text bs' post
  | Keep pre q p q' :: bs' =>
      pre ++ (q :: p ++ [q']) ++ fixed_text bs' post
  end.

Section TraceVocabulary.
Context {os : Os}.

Definition is_read (ev : event) : bool :=
  match ev with EvRead _ => true | _ => false end.

(** The read events of a trace. *)
Definition reads (tr : list event) : list event := filter is_read tr.

(** The file an event is about; the two summary lines and the line about the
    root are about no file. *)
Definition event_path (ev : event) : option path :=
  match ev with
  | EvRead p => Some p
  | EvWrite p _ => Some p
  | EvPrint (FixedImportsIn p) => Some p
  | EvPrint (ErrorProcessing p _) => Some p
  | EvPrint _ => None
  end.

(** Reading [file_path] raises, or yields a text the rewriter leaves as it
    is. *)
Definition nothing_to_fix (disk : fs) (file_path : path) : bool :=
  match os_read disk file_path with
  | inl _ => true
  | inr content => text_eqb (rewrite content) content
  end.

(** The files [main] finds under the root. *)
Definition discovered (disk : fs) : list path :=
  os_rglob disk project_root "*.ts" ++ os_rglob disk project_root "*.tsx".
End TraceVocabulary.

(** A project in which no file needs a fix. *)
Definition clean_disk : mem_fs := {|
  root_present := true;
  entries :=
    [("a.ts"%string,
      {| mf_text := inr (str "export * from './x';"); mf_locked := false |});
     ("c.ts"%string,
      {| mf_text := inl "invalid start byte"%string; mf_locked := false |});
     ("v.tsx"%string,
      {| mf_text := inr (str "const js = 'a.js';"); mf_locked := true |})]
|}.

(** ** The matcher *)

Section MatcherFacts.
Variable R : Type.
Variable p : char -> bool.
Variable k : text -> option R.

Lemma stop_some s seg r :
  Re.stop k s = Some (seg, r) -> seg = [] /\ k s = Some r.
Proof.
  unfold Re.stop. destruct (k s); simpl; intros H; inversion H; auto.
Qed.

Lemma take_some x (o : option (text * R)) seg r :
  Re.take x o = Some (seg, r) ->
  exists seg', seg = x :: seg' /\ o = Some (seg', r).
Proof.
  destruct o as [[seg' r']|]; simpl; intros H; inversion H; subst.
  exists seg'; auto.
Qed.

Lemma lazy_star_inv s : forall seg r,
  Re.lazy_star p k s = Some (seg, r) ->
  exists s', s = seg ++ s' /\ forallb p seg = true /\ k s' = Some r.
Proof.
  induction s as [|x s IH]; intros seg r; simpl.
  - destruct (Re.stop k []) as [[a b]|] eqn:E; [|discriminate].
    intros H; inversion H; subst. apply stop_some in E as [-> E].
    exists []; auto.
  - destruct (Re.stop k (x :: s)) as [[a b]|] eqn:E.
    + intros H; inversion H; subst. apply stop_some in E as [-> E].
      exists (x :: s); auto.
    + destruct (p x) eqn:Px; [|discriminate].
      intros H. apply take_some in H as (seg' & -> & H).
      apply IH in H as (s' & -> & Hp & Hk).
      exists s'; simpl; rewrite Px; auto.
Qed.

Lemma lazy_star_intro seg : forall s' r,
  forallb p seg = true ->
  k s' = Some r ->
  (forall a b, seg = a ++ b -> b <> [] -> k (b ++ s') = None) ->
  Re.lazy_star p k (seg ++ s') = Some (seg, r).
Proof.
  induction seg as [|x seg IH]; intros s' r Hp Hk Hmin.
  - simpl. destruct s'; simpl; unfold Re.stop; rewrite Hk; reflexivity.
  - simpl in Hp. apply andb_true_iff in Hp as [Px Hp].
    assert (H0 : k (x :: seg ++ s') = None)
      by (apply (Hmin [] (x :: seg) eq_refl); discriminate).
    simpl. unfold Re.stop at 1. rewrite H0. simpl.
    rewrite Px, (IH s' r Hp Hk); [reflexivity|].
    intros a b -> Hb. apply (Hmin (x :: a) b); auto.
Qed.

Lemma greedy_star_inv s : forall seg r,
  Re.greedy_star p k s = Some (seg, r) ->
  exists s', s = seg ++ s' /\ forallb p seg = true /\ k s' = Some r.
Proof.
  induction s as [|x s IH]; intros seg r; simpl.
  - intros H. apply stop_some in H as [-> H]. exists []; auto.
  - destruct (p x) eqn:Px.
    + destruct (Re.greedy_star p k s) as [[a b]|] eqn:E.
      * intros H. simpl in H. inversion H; subst.
        destruct (IH _ _ eq_refl) as (s' & -> & Hp & Hk).
        exists s'; simpl; rewrite Px; auto.
      * intros H. apply stop_some in H as [-> H]. exists (x :: s); auto.
    + intros H. apply stop_some in H as [-> H]. exists (x :: s); auto.
Qed.

Lemma greedy_star_intro seg : forall s' r,
  forallb p seg = true ->
  run_ends p s' ->
  k s' = Some r ->
  Re.greedy_star p k (seg ++ s') = Some (seg, r).
Proof.
  induction seg as [|x seg IH]; intros s' r Hp He Hk.
  - simpl. destruct s' as [|y s']; simpl.
    + unfold Re.stop; rewrite Hk; reflexivity.
    + simpl in He. rewrite He. unfold Re.stop; rewrite Hk; reflexivity.
  - simpl in Hp. apply andb_true_iff in Hp as [Px Hp].
    simpl. rewrite Px, (IH s' r Hp He Hk). reflexivity.
Qed.

Lemma greedy_plus_inv s seg r :
  Re.greedy_plus p k s = Some (seg, r) ->
  exists s', s = seg ++ s' /\ forallb p seg = true /\ seg <> []
             /\ k s' = Some r.
Proof.
  destruct s as [|x s]; simpl; [discriminate|].
  destruct (p x) eqn:Px; [|discriminate].
  intros H. apply take_some in H as (seg' & -> & H).
  apply greedy_star_inv in H as (s' & -> & Hp & Hk).
  exists s'; simpl; rewrite Px; repeat split; auto; discriminate.
Qed.

Lemma greedy_plus_intro seg s' r :
  seg <> [] ->
  forallb p seg = true ->
  run_ends p s' ->
  k s' = Some r ->
  Re.greedy_plus p k (seg ++ s') = Some (seg, r).
Proof.
  destruct seg as [|x seg]; [congruence|]. intros _ Hp He Hk.
  simpl in Hp. apply andb_true_iff in Hp as [Px Hp].
  simpl. rewrite Px, (greedy_star_intro _ Hp He Hk). reflexivity.
Qed.

Lemma once_inv s seg r :
  Re.once p k s = Some (seg, r) ->
  exists x s', s = x :: s' /\ seg = [x] /\ p x = true /\ k s' = Some r.
Proof.
  destruct s as [|x s]; simpl; [discriminate|].
  destruct (p x) eqn:Px; [|discriminate].
  intros H. apply take_some in H as (seg' & -> & H).
  apply stop_some in H as [-> H]. exists x, s; auto.
Qed.
End MatcherFacts.

Lemma match_one_inv cs pat s res :
  Re.match_here (Re.Plain (Re.One cs) :: pat) s = Some res ->
  exists x s', s = x :: s' /\ Re.accepts cs x = true
               /\ Re.match_here pat s' = Some res.
Proof.
  simpl. destruct (Re.once _ _ s) as [[seg r]|] eqn:E; simpl; [|discriminate].
  intros H; inversion H; subst.
  apply once_inv in E as (x & s' & -> & _ & Hx & Hk). eauto.
Qed.

Lemma match_lit_inv c pat s res :
  Re.match_here (Re.Plain (Re.One (Re.Literal c)) :: pat) s = Some res ->
  exists s', s = c :: s' /\ Re.match_here pat s' = Some res.
Proof.
  intros H. apply match_one_inv in H as (x & s' & -> & Hx & Hk).
  simpl in Hx. apply N.eqb_eq in Hx as ->. eauto.
Qed.

Lemma match_plus_inv cs pat s res :
  Re.match_here (Re.Plain (Re.Plus cs) :: pat) s = Some res ->
  exists seg s', s = seg ++ s' /\ forallb (Re.accepts cs) seg = true
                 /\ seg <> [] /\ Re.match_here pat s' = Some res.
Proof.
  simpl. destruct (Re.greedy_plus _ _ s) as [[seg r]|] eqn:E; simpl;
    [|discriminate].
  intros H; inversion H; subst.
  apply greedy_plus_inv in E as (s' & -> & Hp & Hne & Hk). eauto 6.
Qed.

Lemma match_group_inv cs pat s caps rest :
  Re.match_here (Re.Capture (Re.LazyStar cs) :: pat) s = Some (caps, rest) ->
  exists seg s' caps',
    s = seg ++ s' /\ forallb (Re.accepts cs) seg = true
    /\ caps = seg :: caps' /\ Re.match_here pat s' = Some (caps', rest).
Proof.
  simpl. destruct (Re.lazy_star _ _ s) as [[seg [caps' rest']]|] eqn:E; simpl;
    [|discriminate].
  intros H; inversion H; subst.
  apply lazy_star_inv in E as (s' & -> & Hp & Hk). eauto 8.
Qed.

Lemma match_one_eq cs pat x s :
  Re.accepts cs x = true ->
  Re.match_here (Re.Plain (Re.One cs) :: pat) (x :: s) = Re.match_here pat s.
Proof.
  intros Hx. simpl. rewrite Hx. unfold Re.stop.
  destruct (Re.match_here pat s) as [[caps rest]|]; reflexivity.
Qed.

Lemma match_lit_eq c pat s :
  Re.match_here (Re.Plain (Re.One (Re.Literal c)) :: pat) (c :: s)
  = Re.match_here pat s.
Proof. apply match_one_eq. simpl. apply N.eqb_refl. Qed.

Lemma match_plus_intro cs pat seg s' res :
  seg <> [] ->
  forallb (Re.accepts cs) seg = true ->
  run_ends (Re.accepts cs) s' ->
  Re.match_here pat s' = Some res ->
  Re.match_here (Re.Plain (Re.Plus cs) :: pat) (seg ++ s') = Some res.
Proof.
  intros Hne Hp He Hk. simpl.
  rewrite (greedy_plus_intro _ _ _ Hne Hp He Hk). reflexivity.
Qed.

Lemma match_group_intro cs pat seg s' caps rest :
  forallb (Re.accepts cs) seg = true ->
  Re.match_here pat s' = Some (caps, rest) ->
  (forall a b, seg = a ++ b -> b <> [] -> Re.match_here pat (b ++ s') = None) ->
  Re.match_here (Re.Capture (Re.LazyStar cs) :: pat) (seg ++ s')
  = Some (seg :: caps, rest).
Proof.
  intros Hp Hk Hmin. simpl.
  rewrite (lazy_star_intro _ _ _ Hp Hk Hmin). reflexivity.
Qed.

(** ** What the two rules match *)

(** Writes a pattern out as the list of its nodes. *)
Ltac expose pat H :=
  let p := eval cbv in pat in change pat with p in H.

Ltac expose_goal pat :=
  let p := eval cbv in pat in change pat with p.

Lemma literal_tail_sound s caps rest :
  Re.match_here literal_tail s = Some (caps, rest) ->
  exists q stem q',
    s = q :: stem ++ str ".js" ++ q' :: rest
    /\ caps = [stem]
    /\ is_quote q = true /\ quote_free stem = true /\ is_quote q' = true.
Proof.
  intros H. expose literal_tail H.
  apply match_one_inv in H as (q & s1 & -> & Hq & H).
  apply match_group_inv in H as (stem & s2 & caps' & -> & Hs & -> & H).
  apply match_lit_inv in H as (s3 & -> & H).
  apply match_lit_inv in H as (s4 & -> & H).
  apply match_lit_inv in H as (s5 & -> & H).
  apply match_one_inv in H as (q' & s6 & -> & Hq' & H).
  simpl in H. inversion H; subst.
  exists q, stem, q'. repeat split; auto.
Qed.

Lemma pattern1_sound s caps rest :
  Re.match_here pattern1 s = Some (caps, rest) ->
  exists ws q stem q',
    s = from_clause ws q stem q' ++ rest
    /\ caps = [stem]
    /\ ws <> [] /\ spaces ws = true
    /\ is_quote q = true /\ quote_free stem = true /\ is_quote q' = true.
Proof.
  intros H. unfold pattern1 in H. fold literal_tail in H.
  expose (Re.lits "from") H. simpl app in H.
  apply match_lit_inv in H as (s1 & -> & H).
  apply match_lit_inv in H as (s2 & -> & H).
  apply match_lit_inv in H as (s3 & -> & H).
  apply match_lit_inv in H as (s4 & -> & H).
  apply match_plus_inv in H as (ws & s5 & -> & Hws & Hne & H).
  apply literal_tail_sound in H as (q & stem & q' & -> & -> & Hq & Hs & Hq').
  exists ws, q, stem, q'. unfold from_clause. simpl.
  rewrite <- !app_assoc. simpl. rewrite <- !app_assoc. simpl.
  repeat split; auto.
Qed.

Lemma pattern2_sound s caps rest :
  Re.match_here pattern2 s = Some (caps, rest) ->
  exists ws1 clause ws2 ws3 q stem q',
    s = import_head ws1 clause ws2 ++ from_clause ws3 q stem q' ++ rest
    /\ caps = [clause; stem]
    /\ ws1 <> [] /\ spaces ws1 = true
    /\ quote_free clause = true
    /\ ws2 <> [] /\ spaces ws2 = true
    /\ ws3 <> [] /\ spaces ws3 = true
    /\ is_quote q = true /\ quote_free stem = true /\ is_quote q' = true.
Proof.
  intros H. unfold pattern2 in H. fold literal_tail in H.
  expose (Re.lits "import") H. expose (Re.lits "from") H. simpl app in H.
  do 6 (apply match_lit_inv in H as (? & -> & H)).
  apply match_plus_inv in H as (ws1 & ? & -> & Hws1 & Hne1 & H).
  apply match_group_inv in H as (clause & ? & caps' & -> & Hc & -> & H).
  apply match_plus_inv in H as (ws2 & ? & -> & Hws2 & Hne2 & H).
  do 4 (apply match_lit_inv in H as (? & -> & H)).
  apply match_plus_inv in H as (ws3 & ? & -> & Hws3 & Hne3 & H).
  apply literal_tail_sound in H as (q & stem & q' & -> & -> & Hq & Hs & Hq').
  exists ws1, clause, ws2, ws3, q, stem, q'.
  unfold import_head, from_clause. simpl.
  rewrite <- !app_assoc. simpl. rewrite <- !app_assoc. simpl.
  repeat split; auto.
Qed.

Lemma is_quote_cases q :
  is_quote q = true -> q = squote \/ q = dquote.
Proof.
  unfold is_quote, Re.mem, quotes; simpl.
  rewrite !orb_true_iff, !N.eqb_eq. intuition discriminate.
Qed.

Lemma quote_not_space q : is_quote q = true -> Re.is_space q = false.
Proof. intros H; apply is_quote_cases in H as [-> | ->]; reflexivity. Qed.

Lemma quote_free_app a b :
  quote_free (a ++ b) = quote_free a && quote_free b.
Proof. apply forallb_app. Qed.

Lemma spaces_app a b : spaces (a ++ b) = spaces a && spaces b.
Proof. apply forallb_app. Qed.

Lemma from_clause_app ws q stem q' rest :
  from_clause ws q stem q' ++ rest
  = str "from" ++ ws ++ q :: stem ++ str ".js" ++ q' :: rest.
Proof.
  unfold from_clause. rewrite <- !app_assoc. simpl.
  rewrite <- !app_assoc. reflexivity.
Qed.

(** After a quote-free text no match of [\.js] and a quote can begin
    before the text ends: the lazy group cannot stop early. *)
Lemma js_quote_not_inside b s' :
  b <> [] -> quote_free b = true ->
  Re.match_here
    (Re.lits ".js" ++ [Re.Plain (Re.One (Re.OneOf quotes))])
    (b ++ str ".js" ++ s') = None.
Proof.
  intros Hb Hq.
  destruct (Re.match_here _ _) as [res|] eqn:E; [exfalso|reflexivity].
  expose (Re.lits ".js") E. simpl app in E.
  apply match_lit_inv in E as (s1 & E1 & E).
  apply match_lit_inv in E as (s2 & -> & E).
  apply match_lit_inv in E as (s3 & -> & E).
  apply match_one_inv in E as (x & s4 & -> & Hx & _).
  change (Re.accepts (Re.OneOf quotes) x) with (is_quote x) in Hx.
  destruct b as [|b1 [|b2 [|b3 [|b4 b]]]]; [congruence|..];
    simpl in E1; inversion E1; subst; try discriminate Hx.
  simpl in Hq. rewrite Hx in Hq. simpl in Hq. discriminate.
Qed.

Lemma literal_tail_complete q stem q' rest :
  is_quote q = true -> quote_free stem = true -> is_quote q' = true ->
  Re.match_here literal_tail (q :: stem ++ str ".js" ++ q' :: rest)
  = Some ([stem], rest).
Proof.
  intros Hq Hs Hq'. unfold literal_tail. simpl app.
  rewrite match_one_eq by exact Hq.
  apply match_group_intro.
  - exact Hs.
  - expose_goal (Re.lits ".js"). simpl app.
    change (str ".js") with [46%N; 106%N; 115%N]. simpl app.
    rewrite !match_lit_eq, match_one_eq by exact Hq'. reflexivity.
  - intros a b -> Hb. rewrite quote_free_app in Hs.
    apply andb_true_iff in Hs as [_ Hs].
    apply js_quote_not_inside; assumption.
Qed.

Lemma pattern1_complete ws q stem q' rest :
  ws <> [] -> spaces ws = true ->
  is_quote q = true -> quote_free stem = true -> is_quote q' = true ->
  Re.match_here pattern1 (from_clause ws q stem q' ++ rest)
  = Some ([stem], rest).
Proof.
  intros Hne Hws Hq Hs Hq'. rewrite from_clause_app.
  unfold pattern1. fold literal_tail.
  expose_goal (Re.lits "from"). simpl app.
  change (str "from") with [102%N; 114%N; 111%N; 109%N]. simpl app.
  rewrite !match_lit_eq.
  apply match_plus_intro; auto.
  - simpl. apply quote_not_space, Hq.
  - apply literal_tail_complete; assumption.
Qed.

(** ** [re.sub] *)

Lemma text_length_ind (P : list char -> Prop) :
  (forall s, (forall t, length t < length s -> P t) -> P s) ->
  forall s : list char, P s.
Proof.
  intros H s. remember (length s) as n eqn:En. revert s En.
  induction n as [n IH] using lt_wf_ind. intros s ->.
  apply H. intros t Ht. exact (IH _ Ht t eq_refl).
Qed.

Section SubFacts.
Variable pat : Re.pattern.
Variable repl : Re.template.

Lemma sub_from_0 s :
  Re.sub_from pat repl 0 s =
  match Re.match_here pat s with
  | Some (caps, rest) =>
      Re.expand repl caps ++
      match length s - length rest, s with
      | S n, _ :: s' => Re.sub_from pat repl n s'
      | O, c :: s' => c :: Re.sub_from pat repl 0 s'
      | _, [] => []
      end
  | None =>
      match s with
      | [] => []
      | c :: s' => c :: Re.sub_from pat repl 0 s'
      end
  end.
Proof. destruct s; reflexivity. Qed.

Lemma sub_from_skip seg rest :
  Re.sub_from pat repl (length seg) (seg ++ rest)
  = Re.sub_from pat repl 0 rest.
Proof. induction seg as [|x seg IH]; [reflexivity | exact IH]. Qed.

Lemma sub_match seg rest caps :
  seg <> [] ->
  Re.match_here pat (seg ++ rest) = Some (caps, rest) ->
  Re.sub pat repl (seg ++ rest)
  = Re.expand repl caps ++ Re.sub pat repl rest.
Proof.
  intros Hne H. unfold Re.sub. rewrite sub_from_0, H.
  destruct seg as [|x seg]; [congruence|].
  replace (length ((x :: seg) ++ rest) - length rest) with (S (length seg))
    by (rewrite length_app; simpl length; lia).
  simpl. rewrite sub_from_skip. reflexivity.
Qed.

Lemma sub_nomatch c s :
  Re.match_here pat (c :: s) = None ->
  Re.sub pat repl (c :: s) = c :: Re.sub pat repl s.
Proof. intros H. unfold Re.sub. rewrite sub_from_0, H. reflexivity. Qed.

Lemma sub_nil :
  Re.match_here pat [] = None -> Re.sub pat repl [] = [].
Proof. intros H. unfold Re.sub. rewrite sub_from_0, H. reflexivity. Qed.

Lemma search_false_head s :
  Re.search pat s = false -> Re.match_here pat s = None.
Proof.
  destruct s; simpl; destruct (Re.match_here pat _); congruence.
Qed.

Lemma search_false_tail c s :
  Re.search pat (c :: s) = false -> Re.search pat s = false.
Proof. simpl. destruct (Re.match_here pat (c :: s)); congruence. Qed.

Lemma search_app_true a s :
  Re.search pat s = true -> Re.search pat (a ++ s) = true.
Proof.
  intros H. induction a as [|x a IH]; [exact H|].
  simpl. destruct (Re.match_here pat (x :: a ++ s)); auto.
Qed.

Lemma search_match s res :
  Re.match_here pat s = Some res -> Re.search pat s = true.
Proof. intros H. destruct s; simpl; rewrite H; reflexivity. Qed.

(** Where the pattern matches nowhere, [re.sub] returns its input. *)
Lemma sub_no_match s :
  Re.search pat s = false -> Re.sub pat repl s = s.
Proof.
  induction s as [|c s IH]; intros H.
  - apply sub_nil, search_false_head, H.
  - rewrite sub_nomatch by (apply search_false_head, H).
    rewrite IH by (apply search_false_tail with c, H). reflexivity.
Qed.

Hypothesis Hshrink : shrinking pat repl.

Lemma sub_length s :
  length (Re.sub pat repl s) <= length s
  /\ (Re.search pat s = true -> length (Re.sub pat repl s) < length s).
Proof.
  induction s as [s IH] using text_length_ind.
  destruct (Re.match_here pat s) as [[caps rest]|] eqn:E.
  - destruct (Hshrink _ E) as (seg & -> & Hlen).
    assert (Hne : seg <> []) by (destruct seg; simpl in Hlen; [lia|congruence]).
    rewrite (sub_match Hne E).
    assert (Hr : length rest < length (seg ++ rest)).
    { rewrite length_app. destruct seg; simpl in *; [congruence|lia]. }
    destruct (IH rest Hr) as [IH1 _].
    rewrite !length_app. split; intros; lia.
  - destruct s as [|c s].
    + rewrite sub_nil by exact E. simpl. split; [lia|].
      rewrite E. discriminate.
    + rewrite sub_nomatch by exact E.
      destruct (IH s (Nat.lt_succ_diag_r _)) as [IH1 IH2].
      simpl. rewrite E. split; [lia|]. intros H. apply IH2 in H. lia.
Qed.
End SubFacts.

(** ** Texts and their quote characters *)

Lemma space_not_quote c : Re.is_space c = true -> is_quote c = false.
Proof.
  intros H. destruct (is_quote c) eqn:E; [|reflexivity].
  apply quote_not_space in E. congruence.
Qed.

Lemma spaces_quote_free ws : spaces ws = true -> quote_free ws = true.
Proof.
  induction ws as [|c ws IH]; simpl; [reflexivity|].
  intros H. apply andb_true_iff in H as [Hc H].
  rewrite (space_not_quote _ Hc), IH by exact H. reflexivity.
Qed.

(** A text splits at its first quote in one way only. *)
Lemma quote_split_unique a : forall q b a' q' b',
  quote_free a = true -> quote_free a' = true ->
  is_quote q = true -> is_quote q' = true ->
  a ++ q :: b = a' ++ q' :: b' ->
  a = a' /\ q = q' /\ b = b'.
Proof.
  induction a as [|x a IH]; intros q b [|y a'] q' b' Ha Ha' Hq Hq' E;
    simpl in *.
  - inversion E; auto.
  - inversion E; subst. rewrite Hq in Ha'. discriminate.
  - inversion E; subst. rewrite Hq' in Ha. discriminate.
  - inversion E; subst.
    apply andb_true_iff in Ha as [_ Ha]. apply andb_true_iff in Ha' as [_ Ha'].
    destruct (IH _ _ _ _ _ Ha Ha' Hq Hq' H1) as (-> & -> & ->). auto.
Qed.

Lemma first_quote_dec X :
  quote_free X = true
  \/ exists a q b, X = a ++ q :: b /\ quote_free a = true /\ is_quote q = true.
Proof.
  induction X as [|x X IH]; [left; reflexivity|].
  destruct (is_quote x) eqn:Hx.
  - right. exists [], x, X. auto.
  - destruct IH as [IH | (a & q & b & -> & Ha & Hq)].
    + left. simpl. rewrite Hx, IH. reflexivity.
    + right. exists (x :: a), q, b. simpl. rewrite Hx, Ha. auto.
Qed.

(** A quote-free text holds no quote. *)
Lemma quote_free_no_quote a q b :
  is_quote q = true -> quote_free (a ++ q :: b) = false.
Proof.
  intros Hq. rewrite quote_free_app. simpl. rewrite Hq. simpl.
  apply andb_false_r.
Qed.

(** Two texts with two quotes each, [aM qM bM qM'] read from the head of an
    input and [a q b q'] lying [X] further on: either they sit on the same
    two quotes, or the first one closes on the quote that opens the second,
    or the first one ends within [X]. *)
Lemma two_quote_overlap aM qM bM qM' rest X a q b q' Y :
  quote_free aM = true -> is_quote qM = true ->
  quote_free bM = true -> is_quote qM' = true ->
  quote_free a = true -> is_quote q = true ->
  quote_free b = true -> is_quote q' = true ->
  aM ++ qM :: bM ++ qM' :: rest = X ++ a ++ q :: b ++ q' :: Y ->
  (quote_free X = true /\ aM = X ++ a /\ bM = b /\ rest = Y)
  \/ (exists b0, X = aM ++ qM :: b0 /\ bM = b0 ++ a
                 /\ rest = b ++ q' :: Y)
  \/ (exists X2, X = aM ++ qM :: bM ++ qM' :: X2
                 /\ rest = X2 ++ a ++ q :: b ++ q' :: Y).
Proof.
  intros HaM HqM HbM HqM' Ha Hq Hb Hq' E.
  destruct (first_quote_dec X) as [HX | (x1 & qa & x2 & -> & Hx1 & Hqa)].
  - left. rewrite app_assoc in E.
    apply quote_split_unique in E as (-> & -> & E); auto.
    + apply quote_split_unique in E as (-> & -> & ->); auto.
    + rewrite quote_free_app, HX, Ha. reflexivity.
  - right. rewrite <- app_assoc in E. simpl in E.
    apply quote_split_unique in E as (-> & -> & E); auto.
    destruct (first_quote_dec x2) as [Hx2 | (x3 & qb & x4 & -> & Hx3 & Hqb)].
    + left. rewrite app_assoc in E.
      apply quote_split_unique in E as (-> & -> & ->); auto.
      * exists x2. auto.
      * rewrite quote_free_app, Hx2, Ha. reflexivity.
    + right. rewrite <- app_assoc in E. simpl in E.
      apply quote_split_unique in E as (-> & -> & ->); auto.
      exists x4. auto.
Qed.

(** A text that ends with a quote and starts an input [X ++ A], where [A]
    has no quote, ends within [X]. *)
Lemma quote_ended_within m q X2 X A :
  is_quote q = true -> quote_free A = true ->
  (m ++ [q]) ++ X2 = X ++ A ->
  exists X3, X = (m ++ [q]) ++ X3 /\ X2 = X3 ++ A.
Proof.
  intros Hq HA E. apply app_eq_app in E as [l [[E1 E2] | [E1 E2]]].
  - destruct l as [|y l] using rev_ind.
    + exists []. rewrite app_nil_r in E1. simpl in E2. subst. 
      rewrite app_nil_r. auto.
    + rewrite app_assoc in E1. apply app_inj_tail in E1 as [_ <-].
      rewrite E2, <- app_assoc in HA. simpl in HA.
      rewrite quote_free_no_quote in HA by exact Hq. discriminate.
  - exists l. auto.
Qed.

Unset Implicit Arguments.

(** ** Rule 1 inside a text *)

Lemma clause_ok_inv ws q stem q' :
  clause_ok ws q stem q' = true ->
  ws <> [] /\ spaces ws = true /\ is_quote q = true
  /\ quote_free stem = true /\ is_quote q' = true.
Proof.
  unfold clause_ok. rewrite !andb_true_iff.
  intros [[[[H1 H2] H3] H4] H5]. repeat split; auto.
  intros ->. discriminate.
Qed.

Lemma clause_ok_intro ws q stem q' :
  ws <> [] -> spaces ws = true -> is_quote q = true ->
  quote_free stem = true -> is_quote q' = true ->
  clause_ok ws q stem q' = true.
Proof.
  intros H1 H2 H3 H4 H5. unfold clause_ok. rewrite H2, H3, H4, H5.
  destruct ws; [congruence|reflexivity].
Qed.

Lemma from_clause_quotes ws q stem q' rest :
  from_clause ws q stem q' ++ rest
  = (str "from" ++ ws) ++ q :: (stem ++ str ".js") ++ q' :: rest.
Proof.
  rewrite from_clause_app, <- !app_assoc. reflexivity.
Qed.

Lemma from_ws_quote_free ws :
  spaces ws = true -> quote_free (str "from" ++ ws) = true.
Proof.
  intros H. rewrite quote_free_app, (spaces_quote_free _ H). reflexivity.
Qed.

Lemma stem_js_quote_free stem :
  quote_free stem = true -> quote_free (stem ++ str ".js") = true.
Proof. intros H. rewrite quote_free_app, H. reflexivity. Qed.

Lemma from_not_shifted wsM X ws :
  str "from" ++ wsM = X ++ str "from" ++ ws ->
  spaces wsM = true -> X = [].
Proof.
  intros E Hs.
  destruct X as [|x1 [|x2 [|x3 [|x4 X]]]]; [reflexivity|..];
    simpl in E; inversion E; subst.
  rewrite spaces_app in Hs. apply andb_true_iff in Hs as [_ Hs].
  simpl in Hs. discriminate.
Qed.

Lemma js_not_space_end a b ws :
  a ++ str ".js" = b ++ ws -> ws <> [] -> spaces ws = true -> False.
Proof.
  intros E Hne Hs.
  destruct (exists_last Hne) as (ws' & w & ->).
  change (str ".js") with ([46%N; 106%N] ++ [115%N]) in E.
  rewrite !app_assoc in E. apply app_inj_tail in E as [_ <-].
  rewrite spaces_app in Hs. apply andb_true_iff in Hs as [_ Hs].
  simpl in Hs. discriminate.
Qed.

(** A match of rule 1 that starts before a [from] clause ends before it. *)
Lemma no_overlap1 wsM qM gM qM' rest X ws q stem q' Y :
  clause_ok wsM qM gM qM' = true ->
  clause_ok ws q stem q' = true ->
  X <> [] ->
  from_clause wsM qM gM qM' ++ rest = X ++ from_clause ws q stem q' ++ Y ->
  exists X2, X = from_clause wsM qM gM qM' ++ X2
             /\ rest = X2 ++ from_clause ws q stem q' ++ Y.
Proof.
  intros HM HO HX E.
  apply clause_ok_inv in HM as (HneM & HwsM & HqM & HgM & HqM').
  apply clause_ok_inv in HO as (Hne & Hws & Hq & Hg & Hq').
  rewrite !from_clause_quotes in E.
  apply two_quote_overlap in E
    as [(_ & E & _) | [(b0 & _ & E & _) | (X2 & -> & ->)]];
    auto using from_ws_quote_free, stem_js_quote_free.
  - apply from_not_shifted in E; auto. contradiction.
  - rewrite app_assoc in E. apply js_not_space_end in E; auto. contradiction.
  - exists X2. rewrite !from_clause_quotes, <- !app_assoc. auto.
Qed.

Lemma pattern1_nil : Re.match_here pattern1 [] = None.
Proof. reflexivity. Qed.

Lemma expand1 stem : Re.expand replacement1 [stem] = from_fixed stem.
Proof.
  unfold replacement1, from_fixed. simpl. reflexivity.
Qed.

Lemma sub1_clause ws q stem q' Y :
  clause_ok ws q stem q' = true ->
  Re.sub pattern1 replacement1 (from_clause ws q stem q' ++ Y)
  = from_fixed stem ++ Re.sub pattern1 replacement1 Y.
Proof.
  intros H. apply clause_ok_inv in H as (Hne & Hws & Hq & Hg & Hq').
  rewrite <- expand1. apply sub_match.
  - unfold from_clause. discriminate.
  - apply pattern1_complete; assumption.
Qed.

(** Rule 1 works on a [from] clause where it stands: the text before it
    and the text after it are rewritten on their own. *)
Lemma sub1_app_clause ws q stem q' Y :
  clause_ok ws q stem q' = true ->
  forall X,
    Re.sub pattern1 replacement1 (X ++ from_clause ws q stem q' ++ Y)
    = Re.sub pattern1 replacement1 X ++ from_fixed stem
      ++ Re.sub pattern1 replacement1 Y.
Proof.
  intros HO X. change text with (list char) in X.
  induction X as [X IH] using text_length_ind.
  destruct X as [|c X'].
  - rewrite sub_nil by exact pattern1_nil. simpl. apply sub1_clause, HO.
  - remember (c :: X') as X eqn:EX.
    assert (HX : X <> []) by (subst; discriminate).
    destruct (Re.match_here pattern1 (X ++ from_clause ws q stem q' ++ Y))
      as [[caps rest]|] eqn:E.
    + destruct (pattern1_sound _ E)
        as (wsM & qM & gM & qM' & E1 & -> & HneM & HwsM & HqM & HgM & HqM').
      assert (HM : clause_ok wsM qM gM qM' = true)
        by (apply clause_ok_intro; assumption).
      symmetry in E1.
      destruct (no_overlap1 _ _ _ _ _ _ _ _ _ _ _ HM HO HX E1)
        as (X2 & EX2 & ->).
      rewrite EX2, <- app_assoc.
      rewrite !(sub1_clause _ _ _ _ _ HM), <- app_assoc. f_equal.
      apply IH. rewrite EX2, length_app. unfold from_clause. simpl. lia.
    + assert (E' : Re.match_here pattern1 X = None).
      { destruct (Re.match_here pattern1 X) as [[caps rest]|] eqn:E';
          [|reflexivity].
        destruct (pattern1_sound _ E')
          as (wsM & qM & gM & qM' & -> & -> & HneM & HwsM & HqM & HgM & HqM').
        rewrite <- app_assoc, pattern1_complete in E by assumption.
        discriminate. }
      subst X. simpl app in *.
      rewrite !sub_nomatch by assumption. simpl. f_equal.
      apply IH. simpl. lia.
Qed.

(** ** The two rules, one after the other *)

Lemma rewrite_eq s :
  rewrite s
  = Re.sub pattern2 replacement2 (Re.sub pattern1 replacement1 s).
Proof. reflexivity. Qed.

Lemma search_true_inv pat s :
  Re.search pat s = true ->
  exists u t res, s = u ++ t /\ Re.match_here pat t = Some res.
Proof.
  induction s as [|c s IH]; simpl.
  - destruct (Re.match_here pat []) as [res|] eqn:E; [|discriminate].
    intros _. exists [], [], res. auto.
  - destruct (Re.match_here pat (c :: s)) as [res|] eqn:E.
    + intros _. exists [], (c :: s), res. auto.
    + intros H. destruct (IH H) as (u & t & res & -> & Ht).
      exists (c :: u), t, res. auto.
Qed.

(** Where rule 2 matches, rule 1 matches too, at the [from] of the
    statement. *)
Lemma search2_search1 s :
  Re.search pattern2 s = true -> Re.search pattern1 s = true.
Proof.
  intros H. apply search_true_inv in H as (u & t & [caps rest] & -> & H).
  apply pattern2_sound in H
    as (ws1 & clause & ws2 & ws3 & q & stem & q' & -> & _ & _ & _ & _ & _ & _
        & Hne & Hws & Hq & Hs & Hq').
  apply search_app_true, search_app_true.
  apply search_match with ([stem], rest).
  apply pattern1_complete; assumption.
Qed.

Lemma rewrite_no_match s :
  Re.search pattern1 s = false -> rewrite s = s.
Proof.
  intros H. rewrite rewrite_eq, (sub_no_match _ _ _ H).
  apply sub_no_match.
  destruct (Re.search pattern2 s) eqn:E; [|reflexivity].
  apply search2_search1 in E. congruence.
Qed.

Lemma shrinking1 : shrinking pattern1 replacement1.
Proof.
  intros s caps rest H.
  apply pattern1_sound in H
    as (ws & q & stem & q' & -> & -> & Hne & _).
  exists (from_clause ws q stem q'). split; [reflexivity|].
  rewrite expand1. unfold from_fixed, from_clause.
  rewrite !length_app. simpl. rewrite !length_app. simpl.
  destruct ws; [congruence|]. simpl. lia.
Qed.

Lemma expand2 clause stem :
  Re.expand replacement2 [clause; stem]
  = str "import " ++ clause ++ str " " ++ from_fixed stem.
Proof.
  unfold replacement2, from_fixed. simpl. reflexivity.
Qed.

Lemma shrinking2 : shrinking pattern2 replacement2.
Proof.
  intros s caps rest H.
  apply pattern2_sound in H
    as (ws1 & clause & ws2 & ws3 & q & stem & q' & -> & -> & Hne1 & _ & _
        & Hne2 & _ & Hne3 & _).
  exists (import_head ws1 clause ws2 ++ from_clause ws3 q stem q').
  split; [rewrite <- app_assoc; reflexivity|].
  rewrite expand2. unfold from_fixed, import_head, from_clause.
  repeat (rewrite !length_app; simpl).
  destruct ws1; [congruence|]. destruct ws2; [congruence|].
  destruct ws3; [congruence|]. simpl. lia.
Qed.

Lemma starts_with_app p s : starts_with p (p ++ s) = true.
Proof.
  induction p as [|a p IH]; simpl; [reflexivity|].
  rewrite N.eqb_refl, IH. reflexivity.
Qed.

Lemma ends_with_app a suffix : ends_with suffix (a ++ suffix) = true.
Proof. unfold ends_with. rewrite rev_app_distr. apply starts_with_app. Qed.

Lemma occurs_head p s : starts_with p s = true -> occurs p s = true.
Proof. destruct s; simpl; intros ->; reflexivity. Qed.

Lemma occurs_app p a b : occurs p (a ++ p ++ b) = true.
Proof.
  induction a as [|x a IH]; simpl.
  - apply occurs_head, starts_with_app.
  - rewrite IH. apply orb_true_r.
Qed.

(** ** [re.sub] around a protected stretch of text *)

(** If every match that starts before [Z] ends before [Z], the scan reaches
    the head of [Z] and goes on from there as it would on [Z] alone. *)
Lemma sub_context pat repl Z :
  (forall X caps rest,
      X <> [] -> Re.match_here pat (X ++ Z) = Some (caps, rest) ->
      exists seg X2, seg <> [] /\ X = seg ++ X2 /\ rest = X2 ++ Z) ->
  forall X, exists U, Re.sub pat repl (X ++ Z) = U ++ Re.sub pat repl Z.
Proof.
  intros H1 X. change text with (list char) in X.
  induction X as [X IH] using text_length_ind.
  destruct X as [|c X'].
  - exists []. reflexivity.
  - destruct (Re.match_here pat ((c :: X') ++ Z)) as [[caps rest]|] eqn:E.
    + destruct (H1 (c :: X') caps rest ltac:(discriminate) E)
        as (seg & X2 & Hne & EX & ->).
      destruct (IH X2) as (U & HU).
      { rewrite EX, length_app. destruct seg; [congruence|simpl; lia]. }
      exists (Re.expand repl caps ++ U).
      rewrite EX, <- app_assoc in E |- *.
      rewrite (sub_match _ repl Hne E), HU, app_assoc. reflexivity.
    + destruct (IH X') as (U & HU); [simpl; lia|].
      exists (c :: U). simpl in *. rewrite sub_nomatch by exact E.
      rewrite HU. reflexivity.
Qed.

(** If no match starts inside [B], the scan copies [B]. *)
Lemma sub_through pat repl Y B :
  (forall B1 B2, B = B1 ++ B2 -> B2 <> [] ->
                 Re.match_here pat (B2 ++ Y) = None) ->
  Re.sub pat repl (B ++ Y) = B ++ Re.sub pat repl Y.
Proof.
  induction B as [|c B IH]; intros H; [reflexivity|].
  simpl. rewrite sub_nomatch
    by (apply (H [] (c :: B)); [reflexivity|discriminate]).
  rewrite IH; [reflexivity|].
  intros B1 B2 -> Hne. apply (H (c :: B1) B2); auto.
Qed.

Lemma from_clause_last ws q stem q' :
  from_clause ws q stem q'
  = (str "from" ++ ws ++ q :: stem ++ str ".js") ++ [q'].
Proof.
  unfold from_clause. rewrite <- !app_assoc. simpl.
  rewrite <- !app_assoc. reflexivity.
Qed.

Lemma search1_quote_free A :
  quote_free A = true -> Re.search pattern1 A = false.
Proof.
  intros HA. destruct (Re.search pattern1 A) eqn:E; [exfalso|reflexivity].
  apply search_true_inv in E as (u & t & [caps rest] & -> & H).
  apply pattern1_sound in H
    as (ws & q & stem & q' & -> & _ & _ & _ & Hq & _).
  rewrite from_clause_quotes, app_assoc, quote_free_no_quote in HA
    by exact Hq.
  discriminate.
Qed.

(** Rule 1 leaves a quote-free end of the text as it is. *)
Lemma sub1_quote_free_tail pre A :
  quote_free A = true ->
  exists U, Re.sub pattern1 replacement1 (pre ++ A) = U ++ A.
Proof.
  intros HA.
  destruct (sub_context pattern1 replacement1 A) with (X := pre)
    as (U & HU).
  - intros X caps rest _ E.
    apply pattern1_sound in E
      as (ws & q & stem & q' & E & _ & _ & _ & _ & _ & Hq').
    symmetry in E. rewrite from_clause_last in E.
    apply quote_ended_within in E as (X3 & -> & ->); auto.
    exists ((str "from" ++ ws ++ q :: stem ++ str ".js") ++ [q']), X3.
    repeat split; auto. intros C. apply app_eq_nil in C as [_ C].
    discriminate.
  - exists U. rewrite HU, (sub_no_match _ _ _ (search1_quote_free _ HA)).
    reflexivity.
Qed.

(** ** What the two rules leave alone *)

Lemma head_ok_inv ws1 clause ws2 :
  head_ok ws1 clause ws2 = true ->
  ws1 <> [] /\ spaces ws1 = true /\ quote_free clause = true
  /\ ws2 <> [] /\ spaces ws2 = true.
Proof.
  unfold head_ok. rewrite !andb_true_iff.
  intros [[[[H1 H2] H3] H4] H5]. repeat split; auto; intros ->; discriminate.
Qed.

Lemma import_head_quote_free ws1 clause ws2 :
  spaces ws1 = true -> quote_free clause = true -> spaces ws2 = true ->
  quote_free (import_head ws1 clause ws2) = true.
Proof.
  intros H1 H2 H3. unfold import_head.
  rewrite !quote_free_app, H2, (spaces_quote_free _ H1),
    (spaces_quote_free _ H3).
  reflexivity.
Qed.

Lemma path_ok_inv ws q p q' :
  path_ok ws q p q' = true ->
  clause_ok ws q p q' = true /\ ends_with (str ".js") p = false
  /\ ends_in_space p = false.
Proof.
  unfold path_ok. rewrite !andb_true_iff, !negb_true_iff. tauto.
Qed.

Lemma pattern1_quoted s caps rest :
  Re.match_here pattern1 s = Some (caps, rest) -> quoted_shape s rest.
Proof.
  intros H. apply pattern1_sound in H
    as (ws & q & stem & q' & -> & _ & Hne & Hws & Hq & Hs & Hq').
  exists (str "from"), ws, q, stem, q'.
  rewrite from_clause_quotes. repeat split; auto.
Qed.

Lemma pattern2_quoted s caps rest :
  Re.match_here pattern2 s = Some (caps, rest) -> quoted_shape s rest.
Proof.
  intros H. apply pattern2_sound in H
    as (ws1 & clause & ws2 & ws3 & q & stem & q' & -> & _ & _ & H1 & Hc & _
        & H2 & Hne & H3 & Hq & Hs & Hq').
  exists (import_head ws1 clause ws2 ++ str "from"), ws3, q, stem, q'.
  split; [|repeat split; auto].
  - rewrite from_clause_quotes, <- !app_assoc. reflexivity.
  - rewrite quote_free_app, import_head_quote_free by assumption.
    reflexivity.
Qed.

Lemma ends_in_space_app l ws :
  ws <> [] -> spaces ws = true -> ends_in_space (l ++ ws) = true.
Proof.
  intros Hne Hs. destruct (exists_last Hne) as (ws' & w & ->).
  rewrite spaces_app in Hs. apply andb_true_iff in Hs as [_ Hs].
  simpl in Hs. rewrite andb_true_r in Hs.
  unfold ends_in_space. rewrite app_assoc, rev_app_distr. exact Hs.
Qed.

Lemma from_fixed_plain stem :
  from_fixed stem = plain_clause (str " ") squote stem squote.
Proof. reflexivity. Qed.

Section Protected.
Variables (A ws : text) (q : char) (p : text) (q' : char).
Hypothesis HA : quote_free A = true.
Hypothesis Hpath : path_ok ws q p q' = true.

Variable pat : Re.pattern.
Variable repl : Re.template.
Hypothesis Hshape :
  forall s caps rest,
    Re.match_here pat s = Some (caps, rest) -> quoted_shape s rest.

(** The stretch to be left alone: quote-free text, then the clause. *)
Let kept := A ++ plain_clause ws q p q'.
Let before_quote := A ++ str "from" ++ ws.

Lemma kept_quotes Y : kept ++ Y = before_quote ++ q :: p ++ q' :: Y.
Proof.
  unfold kept, before_quote, plain_clause. rewrite <- !app_assoc. simpl.
  rewrite <- !app_assoc. reflexivity.
Qed.

Lemma before_quote_free : quote_free before_quote = true.
Proof.
  apply path_ok_inv in Hpath as (H & _).
  apply clause_ok_inv in H as (_ & Hws & _).
  unfold before_quote.
  rewrite !quote_free_app, HA, (spaces_quote_free _ Hws). reflexivity.
Qed.

(** A match that starts before the stretch ends before it. *)
Lemma no_overlap_kept X Y caps rest :
  X <> [] ->
  Re.match_here pat (X ++ kept ++ Y) = Some (caps, rest) ->
  exists seg X2, seg <> [] /\ X = seg ++ X2 /\ rest = X2 ++ kept ++ Y.
Proof.
  intros HX E.
  pose proof (path_ok_inv _ _ _ _ Hpath) as (Hc & Hjs & _).
  apply clause_ok_inv in Hc as (Hne & Hws & Hq & Hp & Hq').
  apply Hshape in E
    as (a0 & wsM & Q & g & Q' & E & Ha0 & HneM & HwsM & HQ & Hg & HQ').
  rewrite kept_quotes in E |- *. symmetry in E.
  apply two_quote_overlap in E
    as [(_ & _ & E & _) | [(b0 & _ & E & _) | (X2 & -> & ->)]];
    auto using before_quote_free, stem_js_quote_free.
  - rewrite <- E, ends_with_app in Hjs. discriminate.
  - unfold before_quote in E. rewrite !app_assoc in E.
    apply js_not_space_end in E; [contradiction|assumption..].
  - exists ((a0 ++ wsM) ++ Q :: (g ++ str ".js") ++ [Q']), X2.
    split; [|split; [|reflexivity]].
    + intros C. apply app_eq_nil in C as [_ C]. discriminate.
    + rewrite <- !app_assoc. simpl. rewrite <- !app_assoc. reflexivity.
  - rewrite quote_free_app, Ha0, (spaces_quote_free _ HwsM). reflexivity.
Qed.

(** No match starts inside the stretch. *)
Lemma no_match_inside_kept Y B1 B2 :
  kept = B1 ++ B2 -> B2 <> [] ->
  Re.match_here pat (B2 ++ Y) = None.
Proof.
  intros EB HB2.
  pose proof (path_ok_inv _ _ _ _ Hpath) as (Hc & Hjs & Hsp).
  apply clause_ok_inv in Hc as (Hne & Hws & Hq & Hp & Hq').
  destruct (Re.match_here pat (B2 ++ Y)) as [[caps rest]|] eqn:E;
    [exfalso|reflexivity].
  apply Hshape in E
    as (a0 & wsM & Q & g & Q' & E & Ha0 & HneM & HwsM & HQ & Hg & HQ').
  assert (HaM : quote_free (a0 ++ wsM) = true)
    by (rewrite quote_free_app, Ha0, (spaces_quote_free _ HwsM);
        reflexivity).
  assert (EB' : B1 ++ B2 = before_quote ++ q :: p ++ [q']).
  { rewrite <- EB, <- (app_nil_r kept), kept_quotes. reflexivity. }
  destruct (first_quote_dec B1) as [HB1 | (x1 & qa & x2 & -> & Hx1 & Hqa)].
  - destruct (first_quote_dec B2) as [HB2' | (c1 & qc & c2 & -> & Hc1 & Hqc)].
    + assert (C : quote_free (B1 ++ B2) = true)
        by (rewrite quote_free_app, HB1, HB2'; reflexivity).
      rewrite EB', quote_free_no_quote in C by exact Hq. discriminate.
    + rewrite app_assoc in EB'.
      apply quote_split_unique in EB' as (_ & -> & ->);
        auto using before_quote_free;
        [|rewrite quote_free_app, HB1, Hc1; reflexivity].
      replace ((c1 ++ q :: p ++ [q']) ++ Y)
        with (c1 ++ q :: p ++ q' :: Y) in E
        by (rewrite <- app_assoc; simpl; rewrite <- app_assoc; reflexivity).
      apply quote_split_unique in E as (_ & _ & E); auto.
      apply quote_split_unique in E as (E & _ & _);
        auto using stem_js_quote_free.
      rewrite E, ends_with_app in Hjs. discriminate.
  - replace ((x1 ++ qa :: x2) ++ B2) with (x1 ++ qa :: x2 ++ B2) in EB'
      by (rewrite <- app_assoc; reflexivity).
    apply quote_split_unique in EB' as (_ & _ & EB');
      auto using before_quote_free.
    destruct (exists_last HB2) as (B2' & l & ->).
    rewrite app_assoc in EB'. apply app_inj_tail in EB' as [EB' ->].
    replace ((B2' ++ [q']) ++ Y) with (B2' ++ q' :: Y) in E
      by (rewrite <- app_assoc; reflexivity).
    assert (HB2' : quote_free B2' = true).
    { rewrite <- EB', quote_free_app in Hp.
      apply andb_true_iff in Hp as [_ H]. exact H. }
    apply quote_split_unique in E as (E & _ & _); auto.
    rewrite <- EB', E, app_assoc, ends_in_space_app in Hsp by assumption.
    discriminate.
Qed.

(** [re.sub] leaves the stretch where it is and as it is, and works on what
    follows it as it would on that alone. *)
Lemma sub_keeps X Y :
  exists U,
    Re.sub pat repl (X ++ kept ++ Y) = U ++ kept ++ Re.sub pat repl Y.
Proof.
  destruct (sub_context pat repl (kept ++ Y)) with (X := X) as (U & HU).
  - intros X' caps rest HX E. apply no_overlap_kept with caps; assumption.
  - exists U. rewrite HU. f_equal. apply sub_through.
    intros B1 B2 EB Hne. apply no_match_inside_kept with B1; assumption.
Qed.
End Protected.

(** Both rules, one after the other, leave such a stretch alone. *)
Lemma rewrite_keeps A ws q p q' pre post :
  quote_free A = true -> path_ok ws q p q' = true ->
  exists U,
    rewrite (pre ++ (A ++ plain_clause ws q p q') ++ post)
    = U ++ (A ++ plain_clause ws q p q') ++ rewrite post.
Proof.
  intros HA Hpath. rewrite !rewrite_eq.
  destruct (sub_keeps A ws q p q' HA Hpath pattern1 replacement1
              pattern1_quoted pre post) as (U1 & ->).
  destruct (sub_keeps A ws q p q' HA Hpath pattern2 replacement2
              pattern2_quoted U1 (Re.sub pattern1 replacement1 post))
    as (U2 & ->).
  exists U2. reflexivity.
Qed.

(** A text whose only two quote characters enclose a path that does not end
    in [.js] comes out as it went in. *)
Lemma rewrite_lone_path pre q p q' post :
  quote_free pre = true -> is_quote q = true -> quote_free p = true ->
  is_quote q' = true -> quote_free post = true ->
  ends_with (str ".js") p = false ->
  rewrite (pre ++ q :: p ++ q' :: post) = pre ++ q :: p ++ q' :: post.
Proof.
  intros Hpre Hq Hp Hq' Hpost Hjs. apply rewrite_no_match.
  destruct (Re.search pattern1 _) eqn:E; [exfalso|reflexivity].
  apply search_true_inv in E as (u & t & [caps rest] & E & H).
  apply pattern1_sound in H
    as (ws & qM & stem & qM' & -> & _ & _ & Hws & HqM & Hs & HqM').
  rewrite from_clause_quotes in E.
  apply two_quote_overlap in E
    as [(_ & _ & E & _) | [(b0 & _ & _ & E) | (X2 & _ & E)]];
    auto using from_ws_quote_free, stem_js_quote_free.
  - rewrite E, ends_with_app in Hjs. discriminate.
  - rewrite E, quote_free_no_quote in Hpost by exact HqM'.
    discriminate.
  - rewrite E, app_assoc, quote_free_no_quote in Hpost by exact HqM.
    discriminate.
Qed.

(** ** Properties of rule 1 *)




(** ** Properties of the rewriter *)

(** C9.  The output of the rewriter is never longer than its input, and
    is strictly shorter whenever it differs from it. *)
Theorem rewrite_never_longer (s : text) :
  length (rewrite s) <= length s
  /\ (rewrite s <> s -> length (rewrite s) < length s).
Proof.
  rewrite rewrite_eq.
  destruct (sub_length shrinking1 s) as [H1 H1'].
  destruct (sub_length shrinking2 (Re.sub pattern1 replacement1 s))
    as [H2 H2'].
  split; [lia|]. intros Hneq.
  destruct (Re.search pattern1 s) eqn:E1.
  - specialize (H1' eq_refl). lia.
  - rewrite (sub_no_match _ _ _ E1) in *.
    destruct (Re.search pattern2 s) eqn:E2.
    + apply H2'. reflexivity.
    + rewrite (sub_no_match _ _ _ E2) in Hneq. congruence.
Qed.

(** C3, as amended.  Running the rewriter a second time changes nothing
    exactly when the first output holds no occurrence of rule 1's pattern
    any more. *)
Theorem rewrite_twice_iff (s : text) :
  rewrite (rewrite s) = rewrite s
  <-> Re.search pattern1 (rewrite s) = false.
Proof.
  split.
  - intros H. destruct (Re.search pattern1 (rewrite s)) eqn:E; [|reflexivity].
    exfalso.
    destruct (sub_length shrinking1 (rewrite s)) as [_ H1].
    destruct (sub_length shrinking2
                (Re.sub pattern1 replacement1 (rewrite s))) as [H2 _].
    specialize (H1 E). rewrite <- rewrite_eq, H in H2. lia.
  - apply rewrite_no_match.
Qed.

Lemma rewrite_twice_iff_witness :
  rewrite (rewrite (str "import x from './foo.js';"))
  = rewrite (str "import x from './foo.js';").
Proof.
  apply (proj2 (rewrite_twice_iff (str "import x from './foo.js';"))).
  reflexivity.
Defined.

(** C3, as stated, fails: a literal ending in [.js.js] loses one [.js] at
    each run. *)
Lemma rewrite_not_idempotent :
  rewrite (rewrite (str "from './foo.js.js'"))
  <> rewrite (str "from './foo.js.js'").
Proof. vm_compute. discriminate. Qed.







(** ** The script on a file system *)

Lemma text_eqb_eq a b : text_eqb a b = true <-> a = b.
Proof.
  unfold text_eqb. destruct (list_eq_dec N.eq_dec a b); split; congruence.
Qed.

Lemma text_eqb_neq a b : text_eqb a b = false <-> a <> b.
Proof.
  unfold text_eqb. destruct (list_eq_dec N.eq_dec a b); split; congruence.
Qed.

Section ScriptFacts.
Context {os : Os}.

Lemma fix_file_read_fails w p e :
  os_read (w_fs w) p = inl e ->
  fix_imports_in_file p w
  = (inr false,
     {| w_fs := w_fs w;
        w_trace := w_trace w ++ [EvRead p; EvPrint (ErrorProcessing p e)] |}).
Proof.
  intros H. unfold fix_imports_in_file, try_except, bind, read_text.
  rewrite H. unfold print, ret, emit. simpl.
  rewrite <- app_assoc. reflexivity.
Qed.

Lemma fix_file_unchanged w p content :
  os_read (w_fs w) p = inr content ->
  rewrite content = content ->
  fix_imports_in_file p w
  = (inr false, {| w_fs := w_fs w; w_trace := w_trace w ++ [EvRead p] |}).
Proof.
  intros H Heq. unfold fix_imports_in_file, try_except, bind, read_text.
  rewrite H. apply text_eqb_eq in Heq. rewrite Heq. reflexivity.
Qed.

Lemma fix_file_written w p content disk' :
  os_read (w_fs w) p = inr content ->
  rewrite content <> content ->
  os_write (w_fs w) p (rewrite content) = (disk', None) ->
  fix_imports_in_file p w
  = (inr true,
     {| w_fs := disk';
        w_trace := w_trace w
                   ++ [EvRead p; EvWrite p (rewrite content);
                       EvPrint (FixedImportsIn p)] |}).
Proof.
  intros H Hneq Hw. unfold fix_imports_in_file, try_except, bind, read_text.
  rewrite H. apply text_eqb_neq in Hneq. rewrite Hneq.
  unfold write_text, print, ret, emit. simpl. rewrite Hw. simpl.
  rewrite <- !app_assoc. reflexivity.
Qed.

Lemma fix_file_write_fails w p content disk' e :
  os_read (w_fs w) p = inr content ->
  rewrite content <> content ->
  os_write (w_fs w) p (rewrite content) = (disk', Some e) ->
  fix_imports_in_file p w
  = (inr false,
     {| w_fs := disk';
        w_trace := w_trace w
                   ++ [EvRead p; EvWrite p (rewrite content);
                       EvPrint (ErrorProcessing p e)] |}).
Proof.
  intros H Hneq Hw. unfold fix_imports_in_file, try_except, bind, read_text.
  rewrite H. apply text_eqb_neq in Hneq. rewrite Hneq.
  unfold write_text, print, ret, emit. simpl. rewrite Hw. simpl.
  rewrite <- !app_assoc. reflexivity.
Qed.

(** [fix_imports_in_file] always returns, in one of the four ways. *)
Lemma fix_file_outcome w p :
  exists b w', fix_imports_in_file p w = (inr b, w') /\ outcome w p b w'.
Proof.
  destruct (os_read (w_fs w) p) as [e|content] eqn:Hr.
  - eexists _, _. split; [apply fix_file_read_fails, Hr|].
    constructor. exact Hr.
  - destruct (list_eq_dec N.eq_dec (rewrite content) content) as [Heq|Hneq].
    + eexists _, _. split; [apply fix_file_unchanged with content; auto|].
      econstructor 2; eauto.
    + destruct (os_write (w_fs w) p (rewrite content)) as [disk' [e|]] eqn:Hw.
      * eexists _, _. split; [eapply fix_file_write_fails; eauto|].
        econstructor 4; eauto.
      * eexists _, _. split; [eapply fix_file_written; eauto|].
        econstructor 3; eauto.
Qed.

(** What one file adds to the trace: its read first, and one line saying
    it was fixed exactly when [True] is returned. *)
Lemma outcome_trace w p b w' :
  outcome w p b w' ->
  exists evs,
    w_trace w' = w_trace w ++ EvRead p :: evs
    /\ length (filter is_fixed_line evs) = (if b then 1 else 0).
Proof.
  intros H. destruct H; eexists; split; simpl; reflexivity.
Qed.

(** The loop over the files always returns; it reads every file, and its
    count grows by one for each line saying a file was fixed. *)
Lemma fix_all_spec files : forall n w,
  exists m w' evs,
    fix_all files n w = (inr m, w')
    /\ w_trace w' = w_trace w ++ evs
    /\ m = n + length (filter is_fixed_line evs)
    /\ m <= n + length files
    /\ (forall f, In f files -> In (EvRead f) evs).
Proof.
  induction files as [|p files IH]; intros n w.
  - exists n, w, []. simpl. rewrite app_nil_r.
    repeat split; auto; try lia.
  - destruct (fix_file_outcome w p) as (b & w1 & E1 & Ho).
    destruct (outcome_trace _ _ _ _ Ho) as (evs1 & Ht1 & Hc1).
    destruct (IH (if b then n + 1 else n) w1)
      as (m & w2 & evs2 & E2 & Ht2 & Hm & Hle & Hin).
    exists m, w2, (EvRead p :: evs1 ++ evs2).
    split; [|split; [|split; [|split]]].
    + simpl. unfold bind at 1. rewrite E1. exact E2.
    + rewrite Ht2, Ht1, <- app_assoc. reflexivity.
    + simpl. rewrite filter_app, length_app, Hc1, Hm.
      destruct b; lia.
    + simpl. destruct b; lia.
    + intros f [<- | Hf]; [left; reflexivity|].
      right. apply in_or_app. right. apply Hin, Hf.
Qed.
(** [main] when the root directory exists. *)
Lemma main_root_exists w :
  os_exists (w_fs w) project_root = true ->
  main w
  = let ts_files := os_rglob (w_fs w) project_root "*.ts"
                    ++ os_rglob (w_fs w) project_root "*.tsx" in
    match fix_all ts_files 0 (emit (EvPrint (FoundFiles (length ts_files))) w)
    with
    | (inl e, w') => (inl e, w')
    | (inr fixed_count, w') =>
        (inr tt, emit (EvPrint (FixedCount fixed_count)) w')
    end.
Proof.
  intros H. cbv [main bind path_exists find_files rglob ret print].
  rewrite H. reflexivity.
Qed.
End ScriptFacts.

Section ScriptClaims.
Context {os : Os}.



(** C7, as amended.  When the root directory does not exist the run
    prints the line saying so and nothing else, reads and writes no file,
    leaves the file system as it was and returns normally; no count of
    files found or fixed is printed. *)
Theorem missing_root_only_reported (disk : fs) :
  os_exists disk project_root = false ->
  run main disk
  = (inr tt,
     {| w_fs := disk; w_trace := [EvPrint (RootNotFound project_root)] |}).
Proof.
  intros H. unfold run, start, main, bind, path_exists. simpl. rewrite H.
  reflexivity.
Qed.

(** C10.  When the root directory exists the run returns normally; it
    prints the number of files found first and the number of files fixed
    last, and the latter is the number of lines saying a file was fixed and
    is at most the former. *)
Theorem fixed_count_bounded (disk : fs) :
  os_exists disk project_root = true ->
  exists ts_files fixed_count mid w',
    ts_files = os_rglob disk project_root "*.ts"
               ++ os_rglob disk project_root "*.tsx"
    /\ run main disk = (inr tt, w')
    /\ w_trace w' = EvPrint (FoundFiles (length ts_files)) :: mid
                    ++ [EvPrint (FixedCount fixed_count)]
    /\ fixed_count = length (filter is_fixed_line mid)
    /\ 0 <= fixed_count <= length ts_files.
Proof.
  intros H.
  remember (os_rglob disk project_root "*.ts"
            ++ os_rglob disk project_root "*.tsx") as ts_files eqn:Ets.
  destruct (fix_all_spec ts_files 0
              {| w_fs := disk;
                 w_trace := [EvPrint (FoundFiles (length ts_files))] |})
    as (m & w1 & evs & E & Ht & Hm & Hle & _).
  exists ts_files, m, evs,
    {| w_fs := w_fs w1; w_trace := w_trace w1 ++ [EvPrint (FixedCount m)] |}.
  split; [reflexivity|]. split; [|split; [|split]].
  - unfold run. rewrite main_root_exists by exact H.
    cbv zeta. unfold emit, start. simpl. rewrite <- Ets, E. reflexivity.
  - simpl. rewrite Ht. reflexivity.
  - simpl in Hm. exact Hm.
  - simpl in Hle. lia.
Qed.

End ScriptClaims.

(** ** The script on the sample project *)



Lemma missing_root_only_reported_witness :
  run (os := MemOs) main no_project
  = (inr tt,
     {| w_fs := no_project;
        w_trace := [EvPrint (RootNotFound project_root)] |}).
Proof.
  apply (@missing_root_only_reported MemOs no_project). reflexivity.
Defined.

(** C7, as stated, fails: without the root directory no count is printed,
    neither of the files found nor of the files fixed. *)
Lemma missing_root_prints_no_count :
  os_exists (Os := MemOs) no_project project_root = false
  /\ ~ In (EvPrint (FoundFiles 0)) (w_trace (snd (run (os := MemOs) main no_project)))
  /\ ~ In (EvPrint (FixedCount 0)) (w_trace (snd (run (os := MemOs) main no_project))).
Proof.
  split; [reflexivity|].
  split; intros [H|[]]; discriminate.
Qed.

Lemma fixed_count_bounded_witness :
  exists ts_files fixed_count mid w',
    ts_files = os_rglob (Os := MemOs) sample_disk project_root "*.ts"
               ++ os_rglob (Os := MemOs) sample_disk project_root "*.tsx"
    /\ run (os := MemOs) main sample_disk = (inr tt, w')
    /\ w_trace w' = EvPrint (FoundFiles (length ts_files)) :: mid
                    ++ [EvPrint (FixedCount fixed_count)]
    /\ fixed_count = length (filter is_fixed_line mid)
    /\ 0 <= fixed_count <= length ts_files.
Proof.
  apply (@fixed_count_bounded MemOs sample_disk). reflexivity.
Defined.


(** ** More on the rewriter: counting characters *)

Lemma count_app f a b : count f (a ++ b) = count f a + count f b.
Proof. unfold count. rewrite filter_app, length_app. reflexivity. Qed.

Lemma count_cons f c t :
  count f (c :: t) = (if f c then 1 else 0) + count f t.
Proof. unfold count. simpl. destruct (f c); reflexivity. Qed.

Lemma nquotes_quote_free t : quote_free t = true -> nquotes t = 0.
Proof.
  unfold nquotes. induction t as [|c t IH]; [reflexivity|].
  simpl. intros H. apply andb_true_iff in H as [Hc H].
  rewrite count_cons, IH by exact H.
  apply negb_true_iff in Hc. rewrite Hc. reflexivity.
Qed.

Lemma ndquotes_le_nquotes t : ndquotes t <= nquotes t.
Proof.
  unfold ndquotes, nquotes. induction t as [|c t IH]; [reflexivity|].
  rewrite !count_cons.
  destruct (N.eqb dquote c) eqn:E.
  - apply N.eqb_eq in E. subst c. simpl. lia.
  - destruct (is_quote c); lia.
Qed.

Lemma ndquotes_quote_free t : quote_free t = true -> ndquotes t = 0.
Proof.
  intros H. pose proof (ndquotes_le_nquotes t) as L.
  rewrite nquotes_quote_free in L by exact H. lia.
Qed.

Lemma nquotes_from_clause ws q stem q' :
  clause_ok ws q stem q' = true -> nquotes (from_clause ws q stem q') = 2.
Proof.
  intros H. apply clause_ok_inv in H as (_ & Hws & Hq & Hs & Hq').
  unfold from_clause, nquotes.
  rewrite !count_app, count_cons, !count_app, count_cons, Hq, Hq'.
  fold (nquotes ws). fold (nquotes stem).
  rewrite (nquotes_quote_free _ (spaces_quote_free _ Hws)),
    (nquotes_quote_free _ Hs).
  reflexivity.
Qed.

Lemma nquotes_from_fixed stem :
  quote_free stem = true -> nquotes (from_fixed stem) = 2.
Proof.
  intros Hs. unfold from_fixed, nquotes. rewrite !count_app.
  fold (nquotes stem). rewrite (nquotes_quote_free _ Hs). reflexivity.
Qed.

Lemma ndquotes_from_fixed stem :
  quote_free stem = true -> ndquotes (from_fixed stem) = 0.
Proof.
  intros Hs. unfold from_fixed, ndquotes. rewrite !count_app.
  fold (ndquotes stem). rewrite (ndquotes_quote_free _ Hs). reflexivity.
Qed.

Section SubCount.
Variable cmp : nat -> nat -> Prop.
Variable f : char -> bool.
Variable pat : Re.pattern.
Variable repl : Re.template.
Hypothesis cmp_refl : forall n, cmp n n.
Hypothesis cmp_add : forall a b c d, cmp a b -> cmp c d -> cmp (a + c) (b + d).
Hypothesis Hkeep : keeps_count cmp f pat repl.

(** A count that every replacement respects is respected by [re.sub]. *)
Lemma sub_count (s : list char) :
  cmp (count f (Re.sub pat repl s)) (count f s).
Proof.
  induction s as [s IH] using text_length_ind.
  destruct (Re.match_here pat s) as [[caps rest]|] eqn:E.
  - destruct (Hkeep _ _ _ E) as (seg & -> & Hne & Hc).
    rewrite (sub_match pat repl Hne E), !count_app.
    apply cmp_add; [exact Hc|]. apply IH.
    rewrite length_app. destruct seg; [congruence|simpl; lia].
  - destruct s as [|c s].
    + rewrite sub_nil by exact E. apply cmp_refl.
    + rewrite sub_nomatch by exact E. rewrite !count_cons.
      apply cmp_add; [apply cmp_refl|]. apply IH. simpl. lia.
Qed.
End SubCount.

Lemma keeps_nquotes1 : keeps_count eq is_quote pattern1 replacement1.
Proof.
  intros s caps rest H. apply pattern1_sound in H
    as (ws & q & stem & q' & -> & -> & Hne & Hws & Hq & Hs & Hq').
  exists (from_clause ws q stem q'). split; [reflexivity|]. split.
  - unfold from_clause. discriminate.
  - rewrite expand1. fold (nquotes (from_fixed stem)).
    fold (nquotes (from_clause ws q stem q')).
    rewrite nquotes_from_fixed, nquotes_from_clause;
      auto using clause_ok_intro.
Qed.

Lemma keeps_nquotes2 : keeps_count eq is_quote pattern2 replacement2.
Proof.
  intros s caps rest H. apply pattern2_sound in H
    as (ws1 & clause & ws2 & ws3 & q & stem & q' & -> & -> & Hne1 & Hws1 & Hc
        & Hne2 & Hws2 & Hne3 & Hws3 & Hq & Hs & Hq').
  exists (import_head ws1 clause ws2 ++ from_clause ws3 q stem q').
  split; [rewrite <- app_assoc; reflexivity|]. split.
  - unfold import_head. discriminate.
  - rewrite expand2, !count_app.
    fold (nquotes clause). fold (nquotes (from_fixed stem)).
    fold (nquotes (import_head ws1 clause ws2)).
    fold (nquotes (from_clause ws3 q stem q')).
    rewrite (nquotes_quote_free _ Hc), nquotes_from_fixed,
      nquotes_from_clause, (nquotes_quote_free (import_head _ _ _));
      auto using clause_ok_intro, import_head_quote_free.
Qed.

Lemma keeps_ndquotes1 : keeps_count le (N.eqb dquote) pattern1 replacement1.
Proof.
  intros s caps rest H. apply pattern1_sound in H
    as (ws & q & stem & q' & -> & -> & Hne & Hws & Hq & Hs & Hq').
  exists (from_clause ws q stem q'). split; [reflexivity|]. split.
  - unfold from_clause. discriminate.
  - rewrite expand1. fold (ndquotes (from_fixed stem)).
    rewrite ndquotes_from_fixed by exact Hs. lia.
Qed.

Lemma keeps_ndquotes2 : keeps_count le (N.eqb dquote) pattern2 replacement2.
Proof.
  intros s caps rest H. apply pattern2_sound in H
    as (ws1 & clause & ws2 & ws3 & q & stem & q' & -> & -> & Hne1 & Hws1 & Hc
        & Hne2 & Hws2 & Hne3 & Hws3 & Hq & Hs & Hq').
  exists (import_head ws1 clause ws2 ++ from_clause ws3 q stem q').
  split; [rewrite <- app_assoc; reflexivity|]. split.
  - unfold import_head. discriminate.
  - rewrite expand2, !count_app.
    fold (ndquotes clause). fold (ndquotes (from_fixed stem)).
    rewrite (ndquotes_quote_free _ Hc), ndquotes_from_fixed by exact Hs.
    simpl. lia.
Qed.

(** X3.  The rewriter neither adds nor removes a quote character: its output
    has as many quote characters as its input, and no more double quotes
    than its input. *)
Theorem rewrite_keeps_quote_count (s : text) :
  nquotes (rewrite s) = nquotes s /\ ndquotes (rewrite s) <= ndquotes s.
Proof.
  rewrite rewrite_eq. unfold nquotes, ndquotes. split.
  - transitivity (count is_quote (Re.sub pattern1 replacement1 s)).
    + apply (sub_count eq is_quote pattern2 replacement2);
        [reflexivity | intros; lia | exact keeps_nquotes2].
    + apply (sub_count eq is_quote pattern1 replacement1);
        [reflexivity | intros; lia | exact keeps_nquotes1].
  - transitivity (count (N.eqb dquote) (Re.sub pattern1 replacement1 s)).
    + apply (sub_count le (N.eqb dquote) pattern2 replacement2);
        [intros; lia | intros; lia | exact keeps_ndquotes2].
    + apply (sub_count le (N.eqb dquote) pattern1 replacement1);
        [intros; lia | intros; lia | exact keeps_ndquotes1].
Qed.

(** ** More on the rewriter: what each run takes away *)

Section SubLengthBy.
Variable n : nat.
Variable pat : Re.pattern.
Variable repl : Re.template.
Hypothesis Hn : 0 < n.
Hypothesis Hshrink : shrinking_by n pat repl.

Lemma sub_length_by (s : list char) :
  length (Re.sub pat repl s) <= length s
  /\ (Re.search pat s = true -> length (Re.sub pat repl s) + n <= length s).
Proof.
  induction s as [s IH] using text_length_ind.
  destruct (Re.match_here pat s) as [[caps rest]|] eqn:E.
  - destruct (Hshrink _ _ _ E) as (seg & -> & Hlen).
    assert (Hne : seg <> []) by (destruct seg; simpl in Hlen; [lia|congruence]).
    rewrite (sub_match pat repl Hne E).
    assert (Hr : length rest < length (seg ++ rest)).
    { rewrite length_app. destruct seg; simpl in *; [congruence|lia]. }
    destruct (IH rest Hr) as [IH1 _].
    rewrite !length_app. split; intros; lia.
  - destruct s as [|c s].
    + rewrite sub_nil by exact E. simpl. split; [lia|].
      rewrite E. discriminate.
    + rewrite sub_nomatch by exact E.
      destruct (IH s (Nat.lt_succ_diag_r _)) as [IH1 IH2].
      simpl. rewrite E. split; [lia|]. intros H. apply IH2 in H. lia.
Qed.
End SubLengthBy.

Lemma shrinking1_by3 : shrinking_by 3 pattern1 replacement1.
Proof.
  intros s caps rest H.
  apply pattern1_sound in H
    as (ws & q & stem & q' & -> & -> & Hne & _).
  exists (from_clause ws q stem q'). split; [reflexivity|].
  rewrite expand1. unfold from_fixed, from_clause.
  rewrite !length_app. simpl. rewrite !length_app. simpl.
  destruct ws; [congruence|]. simpl. lia.
Qed.

Lemma shrinking2_by3 : shrinking_by 3 pattern2 replacement2.
Proof.
  intros s caps rest H.
  apply pattern2_sound in H
    as (ws1 & clause & ws2 & ws3 & q & stem & q' & -> & -> & Hne1 & _ & _
        & Hne2 & _ & Hne3 & _).
  exists (import_head ws1 clause ws2 ++ from_clause ws3 q stem q').
  split; [rewrite <- app_assoc; reflexivity|].
  rewrite expand2. unfold from_fixed, import_head, from_clause.
  repeat (rewrite !length_app; simpl).
  destruct ws1; [congruence|]. destruct ws2; [congruence|].
  destruct ws3; [congruence|]. simpl. lia.
Qed.

(** X2.  Whenever the rewriter changes a text it makes it at least three
    characters shorter. *)
Theorem rewrite_takes_three (s : text) :
  rewrite s <> s -> length (rewrite s) + 3 <= length s.
Proof.
  intros Hneq. rewrite rewrite_eq in *.
  assert (H3 : 0 < 3) by lia.
  destruct (sub_length_by 3 pattern1 replacement1 H3 shrinking1_by3 s)
    as [H1 H1'].
  destruct (sub_length_by 3 pattern2 replacement2 H3 shrinking2_by3
              (Re.sub pattern1 replacement1 s)) as [H2 H2'].
  destruct (Re.search pattern1 s) eqn:E1.
  - specialize (H1' eq_refl). lia.
  - rewrite (sub_no_match _ _ _ E1) in *.
    destruct (Re.search pattern2 s) eqn:E2.
    + apply H2'. reflexivity.
    + rewrite (sub_no_match _ _ _ E2) in Hneq. congruence.
Qed.

Lemma rewrite_takes_three_witness :
  length (rewrite (str "import x from './foo.js';")) + 3
  <= length (str "import x from './foo.js';").
Proof.
  apply (rewrite_takes_three (str "import x from './foo.js';")).
  vm_compute. discriminate.
Defined.

(** X1.  Rule 2 is subsumed by rule 1: wherever rule 2 matches, rule 1
    matches too, so once rule 1 has left no occurrence of its own pattern
    in its output, rule 2 changes nothing and the rewriter's result is rule
    1's. *)
Theorem rule2_subsumed (s : text) :
  (Re.search pattern2 s = true -> Re.search pattern1 s = true)
  /\ (Re.search pattern1 (Re.sub pattern1 replacement1 s) = false ->
      rewrite s = Re.sub pattern1 replacement1 s).
Proof.
  split; [apply search2_search1|].
  intros H. rewrite rewrite_eq. apply sub_no_match.
  destruct (Re.search pattern2 _) eqn:E; [|reflexivity].
  apply search2_search1 in E. congruence.
Qed.

Lemma rule2_subsumed_witness :
  rewrite (str "import { A } from './bar.js'")
  = Re.sub pattern1 replacement1 (str "import { A } from './bar.js'").
Proof.
  apply (proj2 (rule2_subsumed (str "import { A } from './bar.js'"))).
  reflexivity.
Defined.

Lemma search1_parts s :
  Re.search pattern1 s = true ->
  occurs (str "from") s = true /\ occurs (str ".js") s = true
  /\ 2 <= nquotes s.
Proof.
  intros H. apply search_true_inv in H as (u & t & [caps rest] & -> & H).
  apply pattern1_sound in H
    as (ws & q & stem & q' & -> & _ & Hne & Hws & Hq & Hs & Hq').
  split; [|split].
  - rewrite from_clause_app. apply occurs_app.
  - rewrite from_clause_app.
    replace (u ++ str "from" ++ ws ++ q :: stem ++ str ".js" ++ q' :: rest)
      with ((u ++ str "from" ++ ws ++ q :: stem) ++ str ".js" ++ q' :: rest)
      by (rewrite <- !app_assoc; simpl; rewrite <- ?app_assoc; reflexivity).
    apply occurs_app.
  - unfold nquotes. rewrite !count_app.
    fold (nquotes (from_clause ws q stem q')).
    rewrite nquotes_from_clause by (apply clause_ok_intro; assumption).
    lia.
Qed.

(** X4.  A text without the word [from], or without [.js], or with fewer
    than two quote characters comes out of the rewriter as it went in. *)
Theorem rewrite_needs_from_js_quotes (s : text) :
  occurs (str "from") s = false \/ occurs (str ".js") s = false
  \/ nquotes s < 2 ->
  rewrite s = s.
Proof.
  intros H. apply rewrite_no_match.
  destruct (Re.search pattern1 s) eqn:E; [exfalso|reflexivity].
  apply search1_parts in E as (E1 & E2 & E3).
  destruct H as [H | [H | H]]; [congruence | congruence | lia].
Qed.

Lemma rewrite_needs_from_js_quotes_witness :
  rewrite (str "import x from './foo.ts'; // js'")
  = str "import x from './foo.ts'; // js'".
Proof.
  apply (rewrite_needs_from_js_quotes
           (str "import x from './foo.ts'; // js'")).
  right. left. reflexivity.
Defined.

(** ** More on the rewriter: what it reaches *)

Lemma search_quote_free pat A :
  (forall s caps rest,
      Re.match_here pat s = Some (caps, rest) -> quoted_shape s rest) ->
  quote_free A = true -> Re.search pat A = false.
Proof.
  intros Hshape HA.
  destruct (Re.search pat A) eqn:E; [exfalso|reflexivity].
  apply search_true_inv in E as (u & t & [caps rest] & -> & H).
  apply Hshape in H as (a0 & wsM & Q & g & Q' & -> & _ & _ & _ & HQ & _).
  rewrite !app_assoc, quote_free_no_quote in HA by exact HQ. discriminate.
Qed.

(** Neither rule reaches into a quote-free end of the text. *)
Lemma sub_quote_free_tail pat repl X A :
  (forall s caps rest,
      Re.match_here pat s = Some (caps, rest) -> quoted_shape s rest) ->
  quote_free A = true ->
  exists U, Re.sub pat repl (X ++ A) = U ++ A.
Proof.
  intros Hshape HA.
  destruct (sub_context pat repl A) with (X := X) as (U & HU).
  - intros X' caps rest _ E.
    apply Hshape in E as (a0 & wsM & Q & g & Q' & E & _ & _ & _ & _ & _ & HQ').
    symmetry in E.
    replace ((a0 ++ wsM) ++ Q :: (g ++ str ".js") ++ Q' :: rest)
      with ((((a0 ++ wsM) ++ Q :: g ++ str ".js") ++ [Q']) ++ rest) in E
      by (rewrite <- !app_assoc; simpl; rewrite <- ?app_assoc; reflexivity).
    apply quote_ended_within in E as (X3 & -> & ->); auto.
    exists (((a0 ++ wsM) ++ Q :: g ++ str ".js") ++ [Q']), X3.
    repeat split; auto. intros C. apply app_eq_nil in C as [_ C].
    discriminate.
  - exists U. rewrite HU, (sub_no_match _ _ _ (search_quote_free _ _ Hshape HA)).
    reflexivity.
Qed.

(** X5.  The text after the last quote character of the input is never
    altered: a quote-free end of the input is the end of the output. *)
Theorem rewrite_keeps_quote_free_tail (s A : text) :
  quote_free A = true -> exists U, rewrite (s ++ A) = U ++ A.
Proof.
  intros HA. rewrite rewrite_eq.
  destruct (sub_quote_free_tail pattern1 replacement1 s A pattern1_quoted HA)
    as (U1 & ->).
  apply sub_quote_free_tail; [exact pattern2_quoted | exact HA].
Qed.

Lemma rewrite_keeps_quote_free_tail_witness :
  exists U,
    rewrite (str "import x from './foo.js'" ++ str "; export from y.js")
    = U ++ str "; export from y.js".
Proof.
  apply (rewrite_keeps_quote_free_tail
           (str "import x from './foo.js'") (str "; export from y.js")).
  reflexivity.
Defined.

(** A text the rewriter returns as it is holds no occurrence of rule 1's
    pattern. *)
Lemma rewrite_fixed_no_match t :
  rewrite t = t -> Re.search pattern1 t = false.
Proof.
  intros H. destruct (Re.search pattern1 t) eqn:E; [exfalso|reflexivity].
  destruct (sub_length shrinking1 t) as [_ H1].
  destruct (sub_length shrinking2 (Re.sub pattern1 replacement1 t))
    as [H2 _].
  specialize (H1 E). rewrite <- rewrite_eq, H in H2. lia.
Qed.

(** X6.  In a text whose only quote characters are those of one [from]
    clause with a literal ending in [.js] but not in [.js.js], the rewriter
    replaces that clause by [from], one space and the literal without its
    [.js] between single quotes, and alters nothing else; a second run
    leaves the result as it is. *)
Theorem lone_clause_fixed (pre ws : text) (q : char) (stem : text)
  (q' : char) (post : text) :
  quote_free pre = true -> quote_free post = true ->
  clause_ok ws q stem q' = true ->
  ends_with (str ".js") stem = false ->
  rewrite (pre ++ from_clause ws q stem q' ++ post)
  = pre ++ from_fixed stem ++ post
  /\ rewrite (pre ++ from_fixed stem ++ post) = pre ++ from_fixed stem ++ post.
Proof.
  intros Hpre Hpost Hc Hjs.
  pose proof (clause_ok_inv _ _ _ _ Hc) as (_ & _ & _ & Hs & _).
  assert (Hfix : rewrite (pre ++ from_fixed stem ++ post)
                 = pre ++ from_fixed stem ++ post).
  { replace (pre ++ from_fixed stem ++ post)
      with ((pre ++ str "from ") ++ squote :: stem ++ squote :: post)
      by (unfold from_fixed; rewrite <- !app_assoc; reflexivity).
    apply rewrite_lone_path; auto.
    rewrite quote_free_app, Hpre. reflexivity. }
  split; [|exact Hfix].
  rewrite rewrite_eq, sub1_app_clause by exact Hc.
  rewrite !(sub_no_match pattern1 replacement1)
    by (apply search1_quote_free; assumption).
  apply sub_no_match.
  destruct (Re.search pattern2 _) eqn:E; [|reflexivity].
  apply search2_search1 in E.
  rewrite (rewrite_fixed_no_match _ Hfix) in E. discriminate.
Qed.

Lemma lone_clause_fixed_witness :
  rewrite (str "import { A, B } "
           ++ from_clause (str " ") dquote (str "../bar") dquote ++ str ";")
  = str "import { A, B } " ++ from_fixed (str "../bar") ++ str ";"
  /\ rewrite (str "import { A, B } " ++ from_fixed (str "../bar") ++ str ";")
     = str "import { A, B } " ++ from_fixed (str "../bar") ++ str ";".
Proof.
  apply (lone_clause_fixed (str "import { A, B } ") (str " ") dquote
           (str "../bar") dquote (str ";"));
    reflexivity.
Defined.

(** ** More on the script: one file *)

Section ScriptExtras.
Context {os : Os}.

(** What one call adds to the trace. *)
Lemma outcome_events w p b w' :
  outcome w p b w' ->
  exists evs,
    w_trace w' = w_trace w ++ evs
    /\ (forall ev, In ev evs -> event_path ev = Some p)
    /\ reads evs = [EvRead p]
    /\ length (filter is_fixed_line evs) = (if b then 1 else 0)
    /\ length (filter is_fixed_line evs) <= length (writes evs)
    /\ length (writes evs) <= 1
    /\ (forall p' c, In (EvWrite p' c) evs ->
                      p' = p /\ exists content,
                                  c = rewrite content /\ c <> content).
Proof.
  intros H.
  destruct H as [e H|c H H'|c d H H' Hw|c d e H H' Hw];
    eexists; (split; [reflexivity|]);
    (split;
     [intros ev Hin; simpl in Hin;
      repeat (destruct Hin as [<- | Hin]; [reflexivity|]); contradiction|]);
    (split; [reflexivity|]); (split; [reflexivity|]);
    (split; [simpl; lia|]); (split; [simpl; lia|]);
    intros p' c' Hin; simpl in Hin;
    repeat (destruct Hin as [Hin | Hin];
            [try discriminate; inversion Hin; subst; split; eauto|]);
    contradiction.
Qed.


(** X8.  A call for one file reads, writes and names no other file. *)
Theorem call_concerns_its_file (disk : fs) (p : path) (ev : event) :
  In ev (w_trace (snd (run (fix_imports_in_file p) disk))) ->
  event_path ev = Some p.
Proof.
  unfold run.
  destruct (fix_file_outcome (start disk) p) as (b & w' & -> & Ho).
  destruct (outcome_events _ _ _ _ Ho) as (evs & Ht & Hp & _).
  simpl. rewrite Ht. simpl. apply Hp.
Qed.

(** X9.  Running the script's step twice on a file: when the first call
    wrote the rewritten text, reading the file back yields that text, and
    rule 1's pattern occurs nowhere in it any more, the second call only
    reads the file, writes nothing and returns [False]. *)
Theorem second_call_idle (disk disk' : fs) (p : path) (content : text) :
  os_read disk p = inr content ->
  rewrite content <> content ->
  os_write disk p (rewrite content) = (disk', None) ->
  os_read disk' p = inr (rewrite content) ->
  Re.search pattern1 (rewrite content) = false ->
  fix_imports_in_file p (snd (run (fix_imports_in_file p) disk))
  = (inr false,
     {| w_fs := disk';
        w_trace := [EvRead p; EvWrite p (rewrite content);
                    EvPrint (FixedImportsIn p); EvRead p] |}).
Proof.
  intros Hr Hneq Hw Hr' Hs. unfold run.
  rewrite (fix_file_written (start disk) p content disk' Hr Hneq Hw).
  simpl snd.
  apply (fix_file_unchanged
           {| w_fs := disk';
              w_trace := w_trace (start disk)
                         ++ [EvRead p; EvWrite p (rewrite content);
                             EvPrint (FixedImportsIn p)] |}
           p (rewrite content) Hr' (rewrite_no_match _ Hs)).
Qed.
End ScriptExtras.

Lemma call_concerns_its_file_witness :
  event_path (os := MemOs) (EvWrite "a.ts"%string (str "export * from './x';"))
  = Some "a.ts"%string.
Proof.
  apply (@call_concerns_its_file MemOs sample_disk "a.ts"%string).
  vm_compute. right. left. reflexivity.
Defined.

Lemma second_call_idle_witness :
  fix_imports_in_file (os := MemOs) "a.ts"%string
    (snd (run (fix_imports_in_file "a.ts"%string) sample_disk))
  = (inr false,
     {| w_fs := fst (mem_write sample_disk "a.ts"%string
                       (rewrite (str "export * from './x.js';")));
        w_trace :=
          [EvRead "a.ts"%string;
           EvWrite "a.ts"%string (rewrite (str "export * from './x.js';"));
           EvPrint (FixedImportsIn "a.ts"%string);
           EvRead "a.ts"%string] |}).
Proof.
  apply (@second_call_idle MemOs sample_disk _ "a.ts"%string
           (str "export * from './x.js';")).
  - reflexivity.
  - vm_compute. discriminate.
  - reflexivity.
  - reflexivity.
  - reflexivity.
Defined.

(** ** More on the script: the whole run *)

Section RunExtras.
Context {os : Os}.

Lemma reads_app (a b : list event) : reads (a ++ b) = reads a ++ reads b.
Proof. apply filter_app. Qed.

Lemma writes_app (a b : list event) : writes (a ++ b) = writes a ++ writes b.
Proof. apply filter_app. Qed.

(** What the loop over the files adds to the trace. *)
Lemma fix_all_events files : forall n w,
  exists m w' evs,
    fix_all files n w = (inr m, w')
    /\ w_trace w' = w_trace w ++ evs
    /\ reads evs = map EvRead files
    /\ m = n + length (filter is_fixed_line evs)
    /\ length (filter is_fixed_line evs) <= length (writes evs)
    /\ length (writes evs) <= length files
    /\ (forall p c, In (EvWrite p c) evs ->
                    In p files /\ exists content,
                                    c = rewrite content /\ c <> content).
Proof.
  induction files as [|p files IH]; intros n w.
  - exists n, w, []. simpl. rewrite app_nil_r.
    repeat split; auto; try lia; contradiction.
  - destruct (fix_file_outcome w p) as (b & w1 & E1 & Ho).
    destruct (outcome_events _ _ _ _ Ho)
      as (evs1 & Ht1 & _ & Hr1 & Hf1 & Hfw1 & Hw1 & Hin1).
    destruct (IH (if b then n + 1 else n) w1)
      as (m & w2 & evs2 & E2 & Ht2 & Hr2 & Hm & Hfw2 & Hw2 & Hin2).
    exists m, w2, (evs1 ++ evs2).
    split; [|split; [|split; [|split; [|split; [|split]]]]].
    + simpl. unfold bind at 1. rewrite E1. exact E2.
    + rewrite Ht2, Ht1, <- app_assoc. reflexivity.
    + rewrite reads_app, Hr1, Hr2. reflexivity.
    + rewrite filter_app, length_app, Hm, Hf1. destruct b; lia.
    + rewrite filter_app, writes_app, !length_app. lia.
    + rewrite writes_app, length_app. simpl. lia.
    + intros p' c Hin. apply in_app_or in Hin as [Hin | Hin].
      * destruct (Hin1 _ _ Hin) as (-> & Hc). split; [left; reflexivity|].
        exact Hc.
      * destruct (Hin2 _ _ Hin) as (Hp & Hc). split; [right; exact Hp|].
        exact Hc.
Qed.

(** The loop over files that need no fix. *)
Lemma fix_all_clean files : forall n w,
  forallb (nothing_to_fix (w_fs w)) files = true ->
  exists evs,
    fix_all files n w
    = (inr n, {| w_fs := w_fs w; w_trace := w_trace w ++ evs |})
    /\ writes evs = [] /\ reads evs = map EvRead files.
Proof.
  induction files as [|p files IH]; intros n w H.
  - exists []. simpl. rewrite app_nil_r. destruct w; auto.
  - simpl in H. apply andb_true_iff in H as [Hp H].
    unfold nothing_to_fix in Hp.
    destruct (os_read (w_fs w) p) as [e|content] eqn:Hr.
    + destruct (IH n {| w_fs := w_fs w;
                        w_trace := w_trace w
                                   ++ [EvRead p;
                                       EvPrint (ErrorProcessing p e)] |} H)
        as (evs & E & Hw & Hrd).
      exists ([EvRead p; EvPrint (ErrorProcessing p e)] ++ evs).
      split; [|split].
      * simpl fix_all. unfold bind at 1.
        rewrite (fix_file_read_fails w p e Hr), E. simpl.
        rewrite <- app_assoc. reflexivity.
      * rewrite writes_app, Hw. reflexivity.
      * rewrite reads_app, Hrd. reflexivity.
    + apply text_eqb_eq in Hp.
      destruct (IH n {| w_fs := w_fs w; w_trace := w_trace w ++ [EvRead p] |}
                  H) as (evs & E & Hw & Hrd).
      exists ([EvRead p] ++ evs). split; [|split].
      * simpl fix_all. unfold bind at 1.
        rewrite (fix_file_unchanged w p content Hr Hp), E. simpl.
        rewrite <- app_assoc. reflexivity.
      * rewrite writes_app, Hw. reflexivity.
      * rewrite reads_app, Hrd. reflexivity.
Qed.

(** The trace of a run when the root directory exists. *)
Lemma main_trace (disk : fs) :
  os_exists disk project_root = true ->
  exists m evs w',
    run main disk = (inr tt, w')
    /\ w_trace w' = [EvPrint (FoundFiles (length (discovered disk)))]
                    ++ evs ++ [EvPrint (FixedCount m)]
    /\ reads evs = map EvRead (discovered disk)
    /\ m <= length (writes evs)
    /\ length (writes evs) <= length (discovered disk)
    /\ (forall p c, In (EvWrite p c) evs ->
                    In p (discovered disk)
                    /\ exists content, c = rewrite content /\ c <> content).
Proof.
  intros H.
  destruct (fix_all_events (discovered disk) 0
              {| w_fs := disk;
                 w_trace := [EvPrint (FoundFiles
                                        (length (discovered disk)))] |})
    as (m & w1 & evs & E & Ht & Hr & Hm & Hfw & Hw & Hin).
  exists m, evs,
    {| w_fs := w_fs w1; w_trace := w_trace w1 ++ [EvPrint (FixedCount m)] |}.
  split; [|split; [|split; [exact Hr|split; [lia|split; [exact Hw|exact Hin]]]]].
  - unfold run. rewrite main_root_exists by exact H.
    cbv zeta. unfold emit, start. simpl.
    fold (discovered disk). rewrite E. reflexivity.
  - simpl. rewrite Ht. simpl. rewrite <- ?app_assoc. reflexivity.
Qed.

(** X10.  When the root directory exists, the run reads every file it
    found exactly once, in the order found ([*.ts] before [*.tsx]), and no
    other file; every write is to a file that was found, of a text the
    rewriter produced and changed. *)
Theorem main_reads_what_it_found (disk : fs) :
  os_exists disk project_root = true ->
  let tr := w_trace (snd (run main disk)) in
  reads tr = map EvRead (discovered disk)
  /\ (forall p c, In (EvWrite p c) tr ->
                  In p (discovered disk)
                  /\ exists content, c = rewrite content /\ c <> content).
Proof.
  intros H.
  destruct (main_trace disk H) as (m & evs & w' & -> & Ht & Hr & _ & _ & Hin).
  cbv zeta. simpl snd. rewrite Ht. split.
  - rewrite !reads_app, Hr. simpl. apply app_nil_r.
  - intros p c Hp. apply in_app_or in Hp as [Hp | Hp].
    + destruct Hp as [Hp | []]. discriminate.
    + apply in_app_or in Hp as [Hp | Hp]; [apply (Hin _ _ Hp)|].
      destruct Hp as [Hp | []]. discriminate.
Qed.


(** X11.  When the root directory exists and every file found either fails
    to read or holds a text the rewriter leaves as it is, the run reads
    every file, writes nothing, leaves the file system as it was and
    reports zero files fixed. *)
Theorem main_nothing_to_fix (disk : fs) :
  os_exists disk project_root = true ->
  forallb (nothing_to_fix disk) (discovered disk) = true ->
  exists mid,
    run main disk
    = (inr tt,
       {| w_fs := disk;
          w_trace := EvPrint (FoundFiles (length (discovered disk))) :: mid
                     ++ [EvPrint (FixedCount 0)] |})
    /\ writes mid = []
    /\ reads mid = map EvRead (discovered disk).
Proof.
  intros H Hclean.
  destruct (fix_all_clean (discovered disk) 0
              {| w_fs := disk;
                 w_trace := [EvPrint (FoundFiles
                                        (length (discovered disk)))] |}
              Hclean)
    as (evs & E & Hw & Hr).
  exists evs. split; [|split; assumption].
  unfold run. rewrite main_root_exists by exact H.
  cbv zeta. unfold emit, start. simpl.
  fold (discovered disk). rewrite E. simpl.
  rewrite <- ?app_assoc. reflexivity.
Qed.
End RunExtras.

Lemma main_reads_what_it_found_witness :
  reads (w_trace (snd (run (os := MemOs) main sample_disk)))
  = map EvRead ["a.ts"; "c.ts"; "d.ts"; "b.tsx"]%string.
Proof.
  apply (proj1 (@main_reads_what_it_found MemOs sample_disk eq_refl)).
Defined.


Lemma main_nothing_to_fix_witness :
  exists mid,
    run (os := MemOs) main clean_disk
    = (inr tt,
       {| w_fs := clean_disk;
          w_trace :=
            EvPrint (FoundFiles (length (discovered (os := MemOs) clean_disk)))
            :: mid ++ [EvPrint (FixedCount 0)] |})
    /\ writes mid = []
    /\ reads mid = map EvRead (discovered (os := MemOs) clean_disk).
Proof.
  apply (@main_nothing_to_fix MemOs clean_disk); reflexivity.
Defined.

(** ** More on the rewriter: whole files *)

Section KeptLiteral.
Variables (pre : text) (q : char) (p : text) (q' : char).
Hypothesis Hpre : quote_free pre = true.
Hypothesis Hq : is_quote q = true.
Hypothesis Hp : quote_free p = true.
Hypothesis Hq' : is_quote q' = true.
Hypothesis Hjs : ends_with (str ".js") p = false.
Hypothesis Hsp : ends_in_space p = false.

Variable pat : Re.pattern.
Variable repl : Re.template.
Hypothesis Hshape :
  forall s caps rest,
    Re.match_here pat s = Some (caps, rest) -> quoted_shape s rest.

(** No match starts in the text before the literal or inside it, whatever
    follows. *)
Lemma no_match_inside_literal Y B1 B2 :
  pre ++ q :: p ++ [q'] = B1 ++ B2 -> B2 <> [] ->
  Re.match_here pat (B2 ++ Y) = None.
Proof.
  intros EB HB2. symmetry in EB.
  destruct (Re.match_here pat (B2 ++ Y)) as [[caps rest]|] eqn:E;
    [exfalso|reflexivity].
  apply Hshape in E
    as (a0 & wsM & Q & g & Q' & E & Ha0 & HneM & HwsM & HQ & Hg & HQ').
  assert (HaM : quote_free (a0 ++ wsM) = true)
    by (rewrite quote_free_app, Ha0, (spaces_quote_free _ HwsM);
        reflexivity).
  destruct (first_quote_dec B1) as [HB1 | (x1 & qa & x2 & -> & Hx1 & Hqa)].
  - destruct (first_quote_dec B2) as [HB2' | (c1 & qc & c2 & -> & Hc1 & Hqc)].
    + assert (C : quote_free (B1 ++ B2) = true)
        by (rewrite quote_free_app, HB1, HB2'; reflexivity).
      rewrite EB, quote_free_no_quote in C by exact Hq. discriminate.
    + rewrite app_assoc in EB.
      apply quote_split_unique in EB as (_ & -> & ->); auto;
        [|rewrite quote_free_app, HB1, Hc1; reflexivity].
      replace ((c1 ++ q :: p ++ [q']) ++ Y)
        with (c1 ++ q :: p ++ q' :: Y) in E
        by (rewrite <- app_assoc; simpl; rewrite <- app_assoc; reflexivity).
      apply quote_split_unique in E as (_ & _ & E); auto.
      apply quote_split_unique in E as (E & _ & _);
        auto using stem_js_quote_free.
      rewrite E, ends_with_app in Hjs. discriminate.
  - replace ((x1 ++ qa :: x2) ++ B2) with (x1 ++ qa :: x2 ++ B2) in EB
      by (rewrite <- app_assoc; reflexivity).
    apply quote_split_unique in EB as (_ & _ & EB); auto.
    destruct (exists_last HB2) as (B2' & l & ->).
    rewrite app_assoc in EB. apply app_inj_tail in EB as [EB ->].
    replace ((B2' ++ [q']) ++ Y) with (B2' ++ q' :: Y) in E
      by (rewrite <- app_assoc; reflexivity).
    assert (HB2' : quote_free B2' = true).
    { rewrite <- EB, quote_free_app in Hp.
      apply andb_true_iff in Hp as [_ H]. exact H. }
    apply quote_split_unique in E as (E & _ & _); auto.
    rewrite <- EB, E, app_assoc, ends_in_space_app in Hsp by assumption.
    discriminate.
Qed.

(** [re.sub] copies the text before the literal and the literal, and works
    on what follows as it would on that alone. *)
Lemma sub_keeps_literal Y :
  Re.sub pat repl (pre ++ (q :: p ++ [q']) ++ Y)
  = pre ++ (q :: p ++ [q']) ++ Re.sub pat repl Y.
Proof.
  rewrite !app_assoc. apply sub_through.
  intros B1 B2 EB Hne. apply no_match_inside_literal with B1; [|exact Hne].
  rewrite <- EB. reflexivity.
Qed.
End KeptLiteral.

Lemma block_ok_fix pre ws q stem q' :
  block_ok (Fix pre ws q stem q') = true ->
  quote_free pre = true /\ clause_ok ws q stem q' = true
  /\ ends_with (str ".js") stem = false /\ ends_in_space stem = false.
Proof.
  simpl. rewrite !andb_true_iff, !negb_true_iff. tauto.
Qed.

Lemma block_ok_keep pre q p q' :
  block_ok (Keep pre q p q') = true ->
  quote_free pre = true /\ is_quote q = true /\ quote_free p = true
  /\ is_quote q' = true
  /\ ends_with (str ".js") p = false /\ ends_in_space p = false.
Proof.
  simpl. rewrite !andb_true_iff, !negb_true_iff. tauto.
Qed.

(** Rule 1 fixes every [from] clause of a well-formed file. *)
Lemma sub1_source bs post :
  forallb block_ok bs = true -> quote_free post = true ->
  Re.sub pattern1 replacement1 (source_text bs post) = fixed_text bs post.
Proof.
  intros Hbs Hpost. induction bs as [|b bs IH]; cbn [source_text fixed_text].
  - apply sub_no_match, search1_quote_free, Hpost.
  - simpl in Hbs. apply andb_true_iff in Hbs as [Hb Hbs].
    specialize (IH Hbs). destruct b as [pre ws q stem q'|pre q p q'].
    + apply block_ok_fix in Hb as (Hpre & Hc & _).
      rewrite sub1_app_clause, IH by exact Hc.
      rewrite (sub_no_match _ _ _ (search1_quote_free _ Hpre)).
      reflexivity.
    + apply block_ok_keep in Hb as (Hpre & Hq & Hp & Hq' & Hjs & Hsp).
      rewrite (sub_keeps_literal pre q p q' Hpre Hq Hp Hq' Hjs Hsp
                 pattern1 replacement1 pattern1_quoted), IH.
      reflexivity.
Qed.

(** Neither rule finds anything to do in a fixed file. *)
Lemma sub_fixed pat repl bs post :
  (forall s caps rest,
      Re.match_here pat s = Some (caps, rest) -> quoted_shape s rest) ->
  forallb block_ok bs = true -> quote_free post = true ->
  Re.sub pat repl (fixed_text bs post) = fixed_text bs post.
Proof.
  intros Hshape Hbs Hpost. induction bs as [|b bs IH]; cbn [fixed_text].
  - apply sub_no_match, search_quote_free; assumption.
  - simpl in Hbs. apply andb_true_iff in Hbs as [Hb Hbs].
    specialize (IH Hbs). destruct b as [pre ws q stem q'|pre q p q'].
    + apply block_ok_fix in Hb as (Hpre & Hc & Hjs & Hsp).
      apply clause_ok_inv in Hc as (_ & _ & _ & Hs & _).
      replace (pre ++ from_fixed stem ++ fixed_text bs post)
        with ((pre ++ str "from ") ++ (squote :: stem ++ [squote])
              ++ fixed_text bs post)
        by (unfold from_fixed; rewrite <- ?app_assoc; simpl;
            rewrite <- ?app_assoc; reflexivity).
      rewrite (sub_keeps_literal (pre ++ str "from ") squote stem squote);
        auto.
      * rewrite IH. reflexivity.
      * rewrite quote_free_app, Hpre. reflexivity.
    + apply block_ok_keep in Hb as (Hpre & Hq & Hp & Hq' & Hjs & Hsp).
      rewrite (sub_keeps_literal pre q p q' Hpre Hq Hp Hq' Hjs Hsp
                 pat repl Hshape), IH.
      reflexivity.
Qed.


